(** * Full-text-search query evaluation (pkg/util/tsearch/eval.go)

    A shallow embedding of the TSQuery evaluator: the boolean evaluator
    [evalNode], the position-set evaluator [evalWithinFollowedBy], the
    sorted-list merge [evalFollowedBy] and the normalizer
    [sortAndUniqTSPositions], followed by the properties of the
    specification that concern them. *)

From Stdlib Require Import ZArith Lia String Ascii Bool OrdersEx.
From stdpp Require Import base tactics option list sets sorting.

Local Open Scope Z_scope.

(** ** Machine integers *)

(** Go's [int] is 64 bits wide here (the code assigns [math.MaxInt64] to an
    [int]); arithmetic on it wraps around in two's complement. *)
Definition MaxInt64 : Z := 2 ^ 63 - 1.

Definition int_wrap (x : Z) : Z := (x + 2 ^ 63) mod 2 ^ 64 - 2 ^ 63.

Definition int_add (a b : Z) : Z := int_wrap (a + b).

Definition int_sub (a b : Z) : Z := int_wrap (a - b).

(** The conversion [uint16(x)] of an [int]: the low 16 bits. *)
Definition to_uint16 (x : Z) : Z := x mod 2 ^ 16.

Definition is_uint16 (x : Z) : Prop := 0 <= x < 2 ^ 16.

(** ** Data model *)

(** Modelled from the spec: the weight type and the prefix marker
    [weightStar] are declared outside eval.go; a weight is a small bit field
    and the marker is the bit above the four weight classes.  The evaluator
    only ever compares a weight with [weightStar]. *)
Definition tsWeight : Type := Z.

Definition weightStar : tsWeight := 16.

(** Modelled from the spec: the cap on the length of a position list
    (MAX_POSITIONS), declared outside eval.go. *)
Definition maxTSVectorPositions : nat := 256.

(** Modelled from the spec: [tsPosition], declared outside eval.go, an
    occurrence record with a bounded unsigned position and a weight.
    eval.go converts positions with [int(...)] and [uint16(...)]: the
    position is a 16-bit unsigned field, held here as a [Z] between 0 and
    2^16 - 1 (see [is_uint16]). *)
Record tsPosition : Type := mkPos { position : Z; weight : tsWeight }.

(** Modelled from the spec: [tsTerm], declared outside eval.go, an entry of
    a vector or the term of a query leaf; the fields are those eval.go
    reads ([positions] is [term_positions] here). *)
Record tsTerm : Type := mkTerm { lexeme : string; term_positions : list tsPosition }.

Abbreviation TSVector := (list tsTerm).

(** Modelled from the spec: [tsOperator], declared outside eval.go, an
    integer tag.  The five tags eval.go names are constructors ([invalid]
    marks a leaf); [other_op] stands for every tag outside this set. *)
Inductive tsOperator : Type :=
  | invalid
  | and_
  | or_
  | not_
  | followedby
  | other_op (tag : Z).

(** Modelled from the spec: [*tsNode], declared outside eval.go, a pointer
    to a node of the query tree with the fields eval.go reads; [nil_node] is
    the nil pointer.  [followedN] is converted with [int(...)], so it is an
    integer field; it is held as a [Z]. *)
Inductive tsNode : Type :=
  | nil_node
  | mk_node (op : tsOperator) (followedN : Z) (term : tsTerm) (l r : tsNode).

(** [tsPositionSet]: the positions at which a match succeeds (or fails, if
    [invert] is set) and the width of the match. *)
Record tsPositionSet : Type :=
  mkSet { positions : list tsPosition; width : Z; invert : bool }.

(** The zero value [tsPositionSet{}]. *)
Definition empty_set : tsPositionSet := mkSet [] 0 false.

(** ** Results *)

(** [errors.AssertionFailedf("invalid operator %d", node.op)] *)
Inductive error : Type :=
  | AssertionFailed (op : tsOperator).

(** What a call does: it returns a value together with an error (nil is
    [None]), or it panics on a nil dereference. *)
Inductive outcome (T : Type) : Type :=
  | Returns (val : T) (err : option error)
  | Panics.
Arguments Returns {T} val err.
Arguments Panics {T}.

(** ** Loops *)

(** Runs [body] until it leaves the loop ([None]) or [fuel] iterations have
    been made. *)
Fixpoint iterate {St : Type} (fuel : nat) (body : St → option St) (s : St) : St :=
  match fuel with
  | O => s
  | S k =>
      match body s with
      | None => s
      | Some s' => iterate k body s'
      end
  end.

(** ** Strings *)

(** Go's [a >= b] on strings: bytewise lexicographic order. *)
Definition string_ge (a b : string) : bool :=
  match String_as_OT.compare a b with
  | Lt => false
  | _ => true
  end.

(** [strings.HasPrefix(s, prefix)] *)
Definition HasPrefix (s pre : string) : bool := String.prefix pre s.

(** ** sort.Search *)

Definition Search_body (f : nat → bool) (st : nat * nat) : option (nat * nat) :=
  let '(i, j) := st in
  if (i <? j)%nat then
    let h := ((i + j) / 2)%nat in
    if negb (f h) then Some (h + 1, j)%nat else Some (i, h)
  else None.

Definition Search (n : nat) (f : nat → bool) : nat :=
  fst (iterate n (Search_body f) (0%nat, n)).

(** The closure handed to [sort.Search] by both evaluators:
    [e.v[i].lexeme >= target].  It is only called below [len(e.v)]. *)
Definition lexeme_ge_at (v : TSVector) (target : string) (i : nat) : bool :=
  match v !! i with
  | Some t => string_ge (lexeme t) target
  | None => false
  end.

(** [len(node.term.positions) > 0 && node.term.positions[0].weight == weightStar] *)
Definition prefixMatch (term : tsTerm) : bool :=
  match term_positions term with
  | p :: _ => weight p =? weightStar
  | [] => false
  end.

(** ** The normalizer *)

(** [sort.Slice(pos, func(i, j) bool { return pos[i].position < pos[j].position })]:
    the slice sorted by position.  [sort.Slice] promises no order among
    entries with equal positions.  The model sorts by insertion, which keeps
    such entries in their input order, as the insertion sort that
    [sort.Slice] runs on short slices does; on longer slices the order among
    equal positions is the implementation's.  Only the weight that survives
    the distinct loop depends on it: the properties below use of the sort
    only that its result is sorted and a permutation of its input. *)
Definition position_le (a b : tsPosition) : Prop := position a <= position b.

Global Instance position_le_dec a b : Decision (position_le a b).
Proof. unfold position_le. apply _. Defined.

(** [p] put into a sorted slice, before the first entry that is not below
    it. *)
Fixpoint insert_position (p : tsPosition) (sorted : list tsPosition)
    : list tsPosition :=
  match sorted with
  | [] => [p]
  | q :: rest =>
      if position p <=? position q then p :: q :: rest
      else q :: insert_position p rest
  end.

Definition sort_Slice (pos : list tsPosition) : list tsPosition :=
  foldr insert_position [] pos.

(** One iteration of the loop that makes the entries distinct; the state is
    the slice and [lastUniqueIdx].  Both indices are in range throughout. *)
Definition uniq_body (st : list tsPosition * nat) (j : nat) : list tsPosition * nat :=
  let '(pos, lastUniqueIdx) := st in
  match pos !! j, pos !! lastUniqueIdx with
  | Some pj, Some pl =>
      if negb (position pj =? position pl) then
        let lastUniqueIdx := (lastUniqueIdx + 1)%nat in
        (<[lastUniqueIdx := pj]> pos, lastUniqueIdx)
      else st
  | _, _ => st
  end.

Definition sortAndUniqTSPositions (pos : list tsPosition) : list tsPosition :=
  if (length pos <=? 1)%nat then pos
  else
    let pos := sort_Slice pos in
    let '(pos, lastUniqueIdx) :=
      fold_left uniq_body (seq 1 (length pos - 1)) (pos, 0%nat) in
    let pos := take (lastUniqueIdx + 1) pos in
    if (maxTSVectorPositions <? length pos)%nat then take maxTSVectorPositions pos
    else pos.

(** ** The sorted-list merge *)

(** [emitMode] is a bit field. *)
Definition emitMode : Type := Z.

Definition emitMatches : emitMode := Z.shiftl 1 0.
Definition emitLeftUnmatched : emitMode := Z.shiftl 1 1.
Definition emitRightUnmatched : emitMode := Z.shiftl 1 2.

(** The state of the loop of [evalFollowedBy]. *)
Record mergeState : Type :=
  mkMerge { lIdx : nat; rIdx : nat; ret : list tsPosition }.

(** [append(ret.positions, tsPosition{position: uint16(p)})] when [flag] is
    set in the mode. *)
Definition emit (mode flag : emitMode) (p : Z) (ret : list tsPosition) : list tsPosition :=
  if 0 <? Z.land mode flag then ret ++ [mkPos (to_uint16 p) 0] else ret.

(** The value one side is compared by: its adjusted position, or
    [math.MaxInt64] once the side is exhausted and the other side's
    unmatched entries are wanted; [None] when the loop is to be left. *)
Definition cursor (ps : list tsPosition) (idx : nat) (offset : Z)
    (mode other_unmatched : emitMode) : option Z :=
  match ps !! idx with
  | Some p => Some (int_add (position p) offset)
  | None => if Z.land mode other_unmatched =? 0 then None else Some MaxInt64
  end.

(** One iteration of the loop; [None] is [break]. *)
Definition evalFollowedBy_body (lPositions rPositions : tsPositionSet)
    (lOffset rOffset : Z) (mode : emitMode) (st : mergeState) : option mergeState :=
  let lExhausted := (length (positions lPositions) <=? lIdx st)%nat in
  let rExhausted := (length (positions rPositions) <=? rIdx st)%nat in
  if lExhausted && rExhausted then None
  else
    match cursor (positions lPositions) (lIdx st) lOffset mode emitRightUnmatched with
    | None => None
    | Some lPos =>
        match cursor (positions rPositions) (rIdx st) rOffset mode emitLeftUnmatched with
        | None => None
        | Some rPos =>
            if lPos <? rPos then
              Some (mkMerge (lIdx st + 1) (rIdx st)
                      (emit mode emitLeftUnmatched lPos (ret st)))
            else if lPos =? rPos then
              Some (mkMerge (lIdx st + 1) (rIdx st + 1)
                      (emit mode emitMatches rPos (ret st)))
            else
              Some (mkMerge (lIdx st) (rIdx st + 1)
                      (emit mode emitRightUnmatched rPos (ret st)))
        end
    end.

(** [evalFollowedBy]: every iteration moves a cursor forward, so the loop is
    left after at most [len(l) + len(r)] iterations
    (see [evalFollowedBy_loop_exits]).  The returned set has width 0 and is
    not inverted; the error is always nil. *)
Definition evalFollowedBy (lPositions rPositions : tsPositionSet)
    (lOffset rOffset : Z) (mode : emitMode) : tsPositionSet :=
  let fuel := (length (positions lPositions) + length (positions rPositions))%nat in
  let st := iterate fuel (evalFollowedBy_body lPositions rPositions lOffset rOffset mode)
              (mkMerge 0 0 []) in
  mkSet (ret st) 0 false.

(** ** The position-set evaluator *)

(** The loop of a prefix leaf: from index [i] on, the positions of every
    entry are appended until an entry lacks the prefix. *)
Fixpoint prefix_scan (target : string) (rest : list tsTerm) (ret : list tsPosition)
    : list tsPosition :=
  match rest with
  | [] => ret
  | t :: rest' =>
      if negb (HasPrefix (lexeme t) target) then ret
      else prefix_scan target rest' (ret ++ term_positions t)
  end.

Definition evalLeafWithin (v : TSVector) (term : tsTerm) : tsPositionSet :=
  let target := lexeme term in
  let i := Search (length v) (lexeme_ge_at v target) in
  match v !! i with
  | None => empty_set
  | Some t =>
      if prefixMatch term then
        mkSet (sortAndUniqTSPositions (prefix_scan target (drop i v) [])) 0 false
      else if negb (String.eqb (lexeme t) target) then empty_set
      else mkSet (term_positions t) 0 false
  end.

(** [ret.invert = true] when [invertResults]; [ret.width = width]. *)
Definition finish (ret : tsPositionSet) (invertResults : bool) (width : Z) : tsPositionSet :=
  mkSet (positions ret) width (if invertResults then true else invert ret).

(** [x, err := call; if err != nil { return tsPositionSet{}, err }; k x] *)
Definition try_set (call : outcome tsPositionSet)
    (k : tsPositionSet → outcome tsPositionSet) : outcome tsPositionSet :=
  match call with
  | Panics => Panics
  | Returns _ (Some err) => Returns empty_set (Some err)
  | Returns x None => k x
  end.

Notation "x '<-!' c ';' k" := (try_set c (fun x => k))
  (at level 200, c at level 100, k at level 200, right associativity).

(** The switch on the operands' invert flags in the [or] case: the mode and
    [invertResults]. *)
Definition or_switch (lPositions rPositions : tsPositionSet) : emitMode * bool :=
  if invert lPositions && invert rPositions then (emitMatches, true)
  else if invert lPositions then (emitLeftUnmatched, true)
  else if invert rPositions then (emitRightUnmatched, true)
  else (Z.lor (Z.lor emitMatches emitLeftUnmatched) emitRightUnmatched, false).

(** The switch in the [and] / [followedby] case. *)
Definition and_switch (lPositions rPositions : tsPositionSet) : emitMode * bool :=
  if invert lPositions && invert rPositions then
    (Z.lor emitMatches (Z.lor emitLeftUnmatched emitRightUnmatched), true)
  else if invert lPositions then (emitRightUnmatched, false)
  else if invert rPositions then (emitLeftUnmatched, false)
  else (emitMatches, false).

(** [width = max(l.width, r.width)] and the two offsets, as [and] and [or]
    compute them. *)
Definition align (lPositions rPositions : tsPositionSet) : Z * Z * Z :=
  let w := width lPositions in
  let w := if w <? width rPositions then width rPositions else w in
  (int_sub w (width lPositions), int_sub w (width rPositions), w).

Fixpoint evalWithinFollowedBy (v : TSVector) (node : tsNode) : outcome tsPositionSet :=
  match node with
  | nil_node => Panics
  | mk_node op followedN term l r =>
      match op with
      | invalid => Returns (evalLeafWithin v term) None
      | or_ =>
          lPositions <-! evalWithinFollowedBy v l;
          rPositions <-! evalWithinFollowedBy v r;
          let '(lOffset, rOffset, w) := align lPositions rPositions in
          let '(mode, invertResults) := or_switch lPositions rPositions in
          let ret := evalFollowedBy lPositions rPositions lOffset rOffset mode in
          Returns (finish ret invertResults w) None
      | not_ =>
          ret <-! evalWithinFollowedBy v l;
          Returns (mkSet (positions ret) (width ret) (negb (invert ret))) None
      | followedby =>
          lPositions <-! evalWithinFollowedBy v l;
          rPositions <-! evalWithinFollowedBy v r;
          let lOffset := int_add followedN (width rPositions) in
          let rOffset := 0 in
          let w := int_add lOffset (width lPositions) in
          let '(mode, invertResults) := and_switch lPositions rPositions in
          let ret := evalFollowedBy lPositions rPositions lOffset rOffset mode in
          Returns (finish ret invertResults w) None
      | and_ =>
          lPositions <-! evalWithinFollowedBy v l;
          rPositions <-! evalWithinFollowedBy v r;
          let '(lOffset, rOffset, w) := align lPositions rPositions in
          let '(mode, invertResults) := and_switch lPositions rPositions in
          let ret := evalFollowedBy lPositions rPositions lOffset rOffset mode in
          Returns (finish ret invertResults w) None
      | other_op _ => Returns empty_set (Some (AssertionFailed op))
      end
  end.

(** ** The boolean evaluator *)

(** [err != nil] *)
Definition not_nil (err : option error) : bool :=
  match err with
  | Some _ => true
  | None => false
  end.

Definition evalLeaf (v : TSVector) (term : tsTerm) : bool :=
  let target := lexeme term in
  let i := Search (length v) (lexeme_ge_at v target) in
  match v !! i with
  | Some t =>
      if prefixMatch term then HasPrefix (lexeme t) target
      else String.eqb (lexeme t) target
  | None => false
  end.

Fixpoint evalNode (v : TSVector) (node : tsNode) : outcome bool :=
  match node with
  | nil_node => Panics
  | mk_node op followedN term l r =>
      match op with
      | invalid => Returns (evalLeaf v term) None
      | and_ =>
          match evalNode v l with
          | Panics => Panics
          | Returns lv err =>
              if not_nil err || negb lv then Returns false err
              else evalNode v r
          end
      | or_ =>
          match evalNode v l with
          | Panics => Panics
          | Returns lv err =>
              if not_nil err then Returns false err
              else if lv then Returns true None
              else evalNode v r
          end
      | not_ =>
          match evalNode v l with
          | Panics => Panics
          | Returns ret err => Returns (negb ret) err
          end
      | followedby =>
          match evalWithinFollowedBy v node with
          | Panics => Panics
          | Returns ps err =>
              Returns (0 <? length (positions ps))%nat err
          end
      | other_op _ => Returns false (Some (AssertionFailed op))
      end
  end.

(** Modelled from the spec: [TSQuery], declared outside eval.go; eval.go
    reads its [root]. *)
Record TSQuery : Type := mkQuery { root : tsNode }.

(** [EvalTSQuery(q, v)]: the evaluator holds [v] and [q], and [eval] runs
    [evalNode] on the root of [q]. *)
Definition EvalTSQuery (q : TSQuery) (v : TSVector) : outcome bool :=
  evalNode v (root q).

Global Arguments evalFollowedBy : simpl never.
Global Arguments align : simpl never.
Global Arguments or_switch : simpl never.
Global Arguments and_switch : simpl never.
Global Arguments finish : simpl never.
Global Arguments evalLeafWithin : simpl never.
Global Arguments evalLeaf : simpl never.
Global Arguments sortAndUniqTSPositions : simpl never.
Global Arguments Search : simpl never.
Global Arguments int_add : simpl never.
Global Arguments int_sub : simpl never.

(** ** The tables and notions of the specification *)

(** The three set operations a merge can be asked for, and their union. *)
Definition intersection : emitMode := emitMatches.
Definition left_only : emitMode := emitLeftUnmatched.
Definition right_only : emitMode := emitRightUnmatched.
Definition union_all : emitMode :=
  Z.lor intersection (Z.lor left_only right_only).

(** The merge-mode table, column AND / FOLLOWED-BY: the mode and whether the
    result is inverted, from the operands' invert flags. *)
Definition table_and (l_invert r_invert : bool) : emitMode * bool :=
  match l_invert, r_invert with
  | false, false => (intersection, false)
  | true, false => (right_only, false)
  | false, true => (left_only, false)
  | true, true => (union_all, true)
  end.

(** The merge-mode table, column OR. *)
Definition table_or (l_invert r_invert : bool) : emitMode * bool :=
  match l_invert, r_invert with
  | false, false => (union_all, false)
  | true, false => (left_only, true)
  | false, true => (right_only, true)
  | true, true => (intersection, true)
  end.

(** The order of the entries of a document vector: ascending and unique by
    lexeme. *)
Definition lexeme_lt (a b : tsTerm) : Prop :=
  String_as_OT.lt (lexeme a) (lexeme b).

Definition sorted_by_lexeme (v : TSVector) : Prop := Sorted lexeme_lt v.

(** A query leaf: a node without operator.  Its other fields are not read. *)
Definition leaf (term : tsTerm) (n : Z) (l r : tsNode) : tsNode :=
  mk_node invalid n term l r.

(** A position list in normal form: ascending, without duplicate positions
    and within the cap. *)
Definition normal_form (pos : list tsPosition) : Prop :=
  Sorted Z.le (position <$> pos) ∧ NoDup (position <$> pos) ∧
  (length pos ≤ maxTSVectorPositions)%nat.

(** Strictly ascending by position. *)
Definition position_lt (a b : tsPosition) : Prop := position a < position b.

Global Instance position_lt_dec a b : Decision (position_lt a b).
Proof. unfold position_lt. apply _. Defined.

(** Where a lexeme occurs in a vector. *)
Definition occurs (v : TSVector) (s : string) (p : Z) : Prop :=
  ∃ t, t ∈ v ∧ lexeme t = s ∧ p ∈ position <$> term_positions t.

(** Every position of the vector fits its 16-bit field. *)
Definition uint16_positions (v : TSVector) : Prop :=
  ∀ t, t ∈ v → Forall (λ p, is_uint16 (position p)) (term_positions t).

(** Every position list of the vector is in ascending order. *)
Definition ascending_positions (v : TSVector) : Prop :=
  ∀ t, t ∈ v → Sorted Z.le (position <$> term_positions t).

(** No position list of the vector is longer than the cap. *)
Definition capped_vector (v : TSVector) : Prop :=
  ∀ t, t ∈ v → (length (term_positions t) ≤ maxTSVectorPositions)%nat.

(** Every position list of the vector is strictly ascending: sorted and
    without duplicates. *)
Definition strict_positions (v : TSVector) : Prop :=
  ∀ t, t ∈ v → StronglySorted position_lt (term_positions t).

(** A well-formed document vector: sorted and unique by lexeme, with 16-bit
    positions, every position list strictly ascending and within the cap. *)
Definition well_formed (v : TSVector) : Prop :=
  sorted_by_lexeme v ∧ uint16_positions v ∧ strict_positions v ∧ capped_vector v.

(** A distance that leaves room for a 16-bit position in an [int]; every
    value of a field narrower than [int] is one. *)
Definition distance_in_range (d : Z) : Prop :=
  - 2 ^ 63 <= d <= MaxInt64 - 2 ^ 16.

(** What the loop of the normalizer keeps of a slice: the first entry of
    every run of equal positions (see [sortAndUniqTSPositions_uniq]). *)
Fixpoint uniq_from (kept : tsPosition) (pos : list tsPosition) : list tsPosition :=
  match pos with
  | [] => []
  | p :: pos' =>
      if position p =? position kept then uniq_from kept pos'
      else p :: uniq_from p pos'
  end.

Definition uniq (pos : list tsPosition) : list tsPosition :=
  match pos with
  | [] => []
  | p :: pos' => p :: uniq_from p pos'
  end.

(** The state of the loop of the normalizer before iteration [j], on the
    sorted slice [s]. *)
Definition uniq_inv (s : list tsPosition) (j : nat) (st : list tsPosition * nat) : Prop :=
  length st.1 = length s ∧ (st.2 < j)%nat ∧
  take (S st.2) st.1 = uniq (take j s) ∧ drop j st.1 = drop j s.

(** ** The merge as a recursion on the two lists

    The loop of [evalFollowedBy] restated on what is left of the two lists
    (see [evalFollowedBy_merge]). *)

Definition emitted (mode flag : emitMode) (p : Z) : list tsPosition :=
  if 0 <? Z.land mode flag then [mkPos (to_uint16 p) 0] else [].

Fixpoint merge (lo ro : Z) (mode : emitMode) (ls : list tsPosition)
    : list tsPosition → list tsPosition :=
  fix merge_r (rs : list tsPosition) : list tsPosition :=
    match ls, rs with
    | [], [] => []
    | [], y :: rs' =>
        if Z.land mode emitRightUnmatched =? 0 then []
        else
          let rPos := int_add (position y) ro in
          if MaxInt64 =? rPos then emitted mode emitMatches rPos ++ merge_r rs'
          else emitted mode emitRightUnmatched rPos ++ merge_r rs'
    | x :: ls', [] =>
        if Z.land mode emitLeftUnmatched =? 0 then []
        else
          let lPos := int_add (position x) lo in
          if lPos <? MaxInt64
          then emitted mode emitLeftUnmatched lPos ++ merge lo ro mode ls' []
          else emitted mode emitMatches MaxInt64 ++ merge lo ro mode ls' []
    | x :: ls', y :: rs' =>
        let lPos := int_add (position x) lo in
        let rPos := int_add (position y) ro in
        if lPos <? rPos
        then emitted mode emitLeftUnmatched lPos ++ merge lo ro mode ls' rs
        else if lPos =? rPos
        then emitted mode emitMatches rPos ++ merge lo ro mode ls' rs'
        else emitted mode emitRightUnmatched rPos ++ merge_r rs'
    end.

(** An emitted entry [q] stores the adjusted position [p + offset] reduced
    modulo 2^16 (and no weight). *)
Definition stores (q : tsPosition) (p offset : Z) : Prop :=
  q = mkPos ((p + offset) mod 2 ^ 16) 0.

(** What an entry of a merge result is: the adjusted position of a right
    entry, in a mode that emits matches or unmatched right entries, or the
    adjusted position of a left entry, in a mode that emits unmatched left
    entries. *)
Definition emission (lo ro : Z) (mode : emitMode) (ls rs : list tsPosition)
    (q : tsPosition) : Prop :=
  ((0 < Z.land mode emitMatches ∨ 0 < Z.land mode emitRightUnmatched) ∧
   Exists (λ y, stores q (position y) ro) rs) ∨
  (0 < Z.land mode emitLeftUnmatched ∧
   Exists (λ x, stores q (position x) lo) ls).

(** An upper bound of the width of the position set of a query. *)
Fixpoint span (node : tsNode) : Z :=
  match node with
  | nil_node => 0
  | mk_node op distance _ l r =>
      match op with
      | and_ | or_ => Z.max (span l) (span r)
      | not_ => span l
      | followedby => distance + span r + span l
      | invalid | other_op _ => 0
      end
  end.

(** No followed-by node of the query has a negative distance. *)
Fixpoint nonneg_distances (node : tsNode) : Prop :=
  match node with
  | nil_node => True
  | mk_node op distance _ l r =>
      match op with
      | and_ | or_ => nonneg_distances l ∧ nonneg_distances r
      | not_ => nonneg_distances l
      | followedby => 0 <= distance ∧ nonneg_distances l ∧ nonneg_distances r
      | invalid | other_op _ => True
      end
  end.

(** Every position of the vector is between 0 and [bound]. *)
Definition positions_upto (bound : Z) (v : TSVector) : Prop :=
  ∀ t, t ∈ v → Forall (λ p, 0 <= position p <= bound) (term_positions t).

(** What a sub-query returns when nothing wraps: a width between 0 and its
    span, and strictly ascending positions between 0 and the bound plus the
    width. *)
Definition no_wrap_result (bound : Z) (node : tsNode) (ps : tsPositionSet) : Prop :=
  0 <= width ps <= span node ∧
  Forall (λ q, 0 <= position q <= bound + width ps) (positions ps) ∧
  StronglySorted position_lt (positions ps).

(** ** Shapes of query trees *)

(** Every operand the evaluators read is there, and every tag is one the
    evaluators know. *)
Fixpoint well_shaped (node : tsNode) : Prop :=
  match node with
  | nil_node => False
  | mk_node op _ _ l r =>
      match op with
      | invalid => True
      | and_ | or_ | followedby => well_shaped l ∧ well_shaped r
      | not_ => well_shaped l
      | other_op _ => False
      end
  end.

(** The tags of a tree that the evaluators do not know. *)
Fixpoint unknown_tags (node : tsNode) : list Z :=
  match node with
  | nil_node => []
  | mk_node op _ _ l r =>
      match op with
      | invalid => []
      | and_ | or_ | followedby => unknown_tags l ++ unknown_tags r
      | not_ => unknown_tags l
      | other_op tag => [tag]
      end
  end.

(** The mode with the roles of the two operands exchanged. *)
Definition swapped (mode mode' : emitMode) : Prop :=
  Z.land mode' emitMatches = Z.land mode emitMatches ∧
  (Z.land mode' emitLeftUnmatched =? 0) = (Z.land mode emitRightUnmatched =? 0) ∧
  (Z.land mode' emitRightUnmatched =? 0) = (Z.land mode emitLeftUnmatched =? 0).

(** ** Merges as set operations *)

(** The positions of a list with the offset of its side added. *)
Definition adjusted (offset : Z) (ps : list tsPosition) : list Z :=
  (λ x, position x + offset) <$> ps.

(** What a mode selects of two lists of adjusted positions: the positions
    on both sides when matches are emitted, those only on the left when
    unmatched left entries are, those only on the right when unmatched right
    entries are. *)
Definition selected (lo ro : Z) (mode : emitMode) (ls rs : list tsPosition)
    (p : Z) : Prop :=
  (0 < Z.land mode emitMatches ∧ p ∈ adjusted lo ls ∧ p ∈ adjusted ro rs) ∨
  (0 < Z.land mode emitLeftUnmatched ∧ p ∈ adjusted lo ls ∧ p ∉ adjusted ro rs) ∨
  (0 < Z.land mode emitRightUnmatched ∧ p ∈ adjusted ro rs ∧ p ∉ adjusted lo ls).

(** ** What a query means inside a followed-by *)

(** The entries of a vector whose lexeme has the target as a prefix. *)
Definition with_prefix (target : string) (v : TSVector) : list tsTerm :=
  filter (λ t, HasPrefix (lexeme t) target = true) v.

(** What a position set says of a position: listed, or not listed when the
    set is inverted. *)
Definition holds (ps : tsPositionSet) (p : Z) : Prop :=
  if invert ps then p ∉ position <$> positions ps
  else p ∈ position <$> positions ps.

(** A sub-query of a followed-by matches at [p], the position of its last
    word.  A leaf matches where its lookup finds it.  The operands of [and]
    and [or] are aligned at their first word, so the narrower one is looked
    at [p] less the difference of the widths; the left operand of a
    followed-by ends the distance before the first word of the right one. *)
Fixpoint matches_at (v : TSVector) (node : tsNode) (p : Z) : Prop :=
  match node with
  | nil_node => False
  | mk_node op distance term l r =>
      match op with
      | invalid => p ∈ position <$> positions (evalLeafWithin v term)
      | and_ =>
          matches_at v l (p - (Z.max (span l) (span r) - span l)) ∧
          matches_at v r (p - (Z.max (span l) (span r) - span r))
      | or_ =>
          matches_at v l (p - (Z.max (span l) (span r) - span l)) ∨
          matches_at v r (p - (Z.max (span l) (span r) - span r))
      | not_ => ¬ matches_at v l p
      | followedby => matches_at v l (p - (distance + span r)) ∧ matches_at v r p
      | other_op _ => False
      end
  end.

(** The invert flag of the position set of a query, read off the query
    (see [evalWithinFollowedBy_inverted]). *)
Fixpoint inverted (node : tsNode) : bool :=
  match node with
  | nil_node => false
  | mk_node op _ _ l r =>
      match op with
      | and_ | followedby => inverted l && inverted r
      | or_ => inverted l || inverted r
      | not_ => negb (inverted l)
      | invalid | other_op _ => false
      end
  end.

(** What makes a followed-by at the top true: its position set lists a
    position.  That is a position where the query matches, or, when the set
    is inverted, a position where the query does not match. *)
Definition phrase_found (v : TSVector) (node : tsNode) : Prop :=
  ∃ p, if inverted node then ¬ matches_at v node p else matches_at v node p.

(** ** What a query means *)

Fixpoint satisfied (v : TSVector) (node : tsNode) : Prop :=
  match node with
  | nil_node => False
  | mk_node op _ term l r =>
      match op with
      | invalid =>
          if prefixMatch term
          then ∃ t, t ∈ v ∧ HasPrefix (lexeme t) (lexeme term) = true
          else ∃ t, t ∈ v ∧ lexeme t = lexeme term
      | and_ => satisfied v l ∧ satisfied v r
      | or_ => satisfied v l ∨ satisfied v r
      | not_ => ¬ satisfied v l
      | followedby => phrase_found v node
      | other_op _ => False
      end
  end.

(** Every followed-by that the boolean evaluator can reach has distances
    that are not negative and a span that, added to [bound], stays below
    2^16. *)
Fixpoint phrases_fit (bound : Z) (node : tsNode) : Prop :=
  match node with
  | nil_node => True
  | mk_node op _ _ l r =>
      match op with
      | and_ | or_ => phrases_fit bound l ∧ phrases_fit bound r
      | not_ => phrases_fit bound l
      | followedby => nonneg_distances node ∧ bound + span node < 2 ^ 16
      | invalid | other_op _ => True
      end
  end.

(** ** Sample data *)

Definition at_positions (ps : list Z) : list tsPosition :=
  (λ p, mkPos p 1) <$> ps.

(** A leaf for an exact match of [s], and one with the prefix marker. *)
Definition exact_leaf (s : string) : tsNode :=
  leaf (mkTerm s []) 0 nil_node nil_node.

Definition prefix_leaf (s : string) : tsNode :=
  leaf (mkTerm s [mkPos 0 weightStar]) 0 nil_node nil_node.

Definition no_term : tsTerm := mkTerm "" [].

(** The vector [{"cat": [1], "dog": [2]}]. *)
Definition cat_dog : TSVector :=
  [mkTerm "cat" (at_positions [1]); mkTerm "dog" (at_positions [2])].

(** The vector [{"a": [5, 1], "b": [2]}], whose first position list is not
    in ascending order. *)
Definition unsorted_ab : TSVector :=
  [mkTerm "a" (at_positions [5; 1]); mkTerm "b" (at_positions [2])].

(** A vector with two full position lists: "a" at 1..256, "b" at 257..512. *)
Definition two_full_terms : TSVector :=
  [mkTerm "a" (at_positions (Z.of_nat <$> seq 1 256));
   mkTerm "b" (at_positions (Z.of_nat <$> seq 257 256))].

(** [(a | b) <-> !c] *)
Definition either_then_not : tsNode :=
  mk_node followedby 1 no_term
    (mk_node or_ 0 no_term (exact_leaf "a") (exact_leaf "b"))
    (mk_node not_ 0 no_term (exact_leaf "c") nil_node).

(** The vector [{"a": [1, 16383]}] and the query
    [a <-> !(b <16384> (c <16384> (d <16384> e)))]: positions and distances
    are within 14 bits, the right operand has width 3 * 16384. *)
Definition far_apart_vector : TSVector := [mkTerm "a" (at_positions [1; 16383])].

Definition far (l r : tsNode) : tsNode := mk_node followedby 16384 no_term l r.

Definition far_apart_query : tsNode :=
  mk_node followedby 1 no_term (exact_leaf "a")
    (mk_node not_ 0 no_term
       (far (exact_leaf "b") (far (exact_leaf "c") (far (exact_leaf "d") (exact_leaf "e"))))
       nil_node).

(** The vector [{"a": [1, 65535]}] and the query [a <-> !b]. *)
Definition last_position_vector : TSVector := [mkTerm "a" (at_positions [1; 65535])].

Definition last_position_query : tsNode :=
  mk_node followedby 1 no_term (exact_leaf "a")
    (mk_node not_ 0 no_term (exact_leaf "b") nil_node).

(** A node with a tag the evaluator does not know. *)
Definition bad_node : tsNode := mk_node (other_op 7) 0 no_term nil_node nil_node.

(** * Properties *)

(** ** Machine integers *)

Lemma int_wrap_small x : - 2 ^ 63 <= x <= MaxInt64 → int_wrap x = x.
Proof.
  unfold int_wrap, MaxInt64. intros Hx.
  rewrite Z.mod_small by lia. lia.
Qed.

Lemma int_wrap_range x : - 2 ^ 63 <= int_wrap x <= MaxInt64.
Proof.
  unfold int_wrap, MaxInt64.
  pose proof (Z.mod_pos_bound (x + 2 ^ 63) (2 ^ 64) ltac:(lia)). lia.
Qed.

Lemma to_uint16_int_wrap x : to_uint16 (int_wrap x) = to_uint16 x.
Proof.
  unfold to_uint16, int_wrap.
  rewrite (Z.mod_eq (x + 2 ^ 63) (2 ^ 64)) by lia.
  set (q := (x + 2 ^ 63) / 2 ^ 64).
  replace (x + 2 ^ 63 - 2 ^ 64 * q - 2 ^ 63) with (x + (- 2 ^ 48 * q) * 2 ^ 16) by lia.
  apply Z_mod_plus_full.
Qed.

(** ** The position-set evaluator, one node at a time *)

(** C6: under the position-set evaluator [not(x)] returns the positions and
    the width of [x] unchanged and the invert flag of [x] negated; when the
    evaluation of [x] fails, so does that of [not(x)], in the same way. *)
Theorem not_flips_invert_only (v : TSVector) (n : Z) (t : tsTerm) (x r : tsNode) :
  evalWithinFollowedBy v (mk_node not_ n t x r) =
    match evalWithinFollowedBy v x with
    | Returns s None =>
        Returns (mkSet (positions s) (width s) (negb (invert s))) None
    | Returns _ (Some err) => Returns empty_set (Some err)
    | Panics => Panics
    end.
Proof.
  simpl. destruct (evalWithinFollowedBy v x) as [s [err|]|]; reflexivity.
Qed.

Lemma or_switch_table lp rp :
  or_switch lp rp = table_or (invert lp) (invert rp).
Proof. unfold or_switch. destruct (invert lp), (invert rp); reflexivity. Qed.

Lemma and_switch_table lp rp :
  and_switch lp rp = table_and (invert lp) (invert rp).
Proof. unfold and_switch. destruct (invert lp), (invert rp); reflexivity. Qed.

Lemma align_max lp rp :
  align lp rp =
    let w := Z.max (width lp) (width rp) in
    (int_sub w (width lp), int_sub w (width rp), w).
Proof.
  unfold align. destruct (Z.ltb_spec (width lp) (width rp)).
  - rewrite Z.max_r by lia. reflexivity.
  - rewrite Z.max_l by lia. reflexivity.
Qed.

Lemma finish_evalFollowedBy lp rp lo ro mode inv w :
  finish (evalFollowedBy lp rp lo ro mode) inv w =
    mkSet (positions (evalFollowedBy lp rp lo ro mode)) w inv.
Proof. unfold finish. destruct inv; reflexivity. Qed.

Section one_node.
Context (v : TSVector) (n : Z) (t : tsTerm) (l r : tsNode) (lp rp : tsPositionSet).
Hypothesis Hl : evalWithinFollowedBy v l = Returns lp None.
Hypothesis Hr : evalWithinFollowedBy v r = Returns rp None.

Lemma evalWithinFollowedBy_and :
  evalWithinFollowedBy v (mk_node and_ n t l r) =
    let '(lo, ro, w) := align lp rp in
    let '(mode, inv) := and_switch lp rp in
    Returns (mkSet (positions (evalFollowedBy lp rp lo ro mode)) w inv) None.
Proof.
  cbn [evalWithinFollowedBy]. rewrite Hl, Hr. cbn [try_set].
  destruct (align lp rp) as [[lo ro] w], (and_switch lp rp) as [mode inv].
  by rewrite finish_evalFollowedBy.
Qed.

Lemma evalWithinFollowedBy_or :
  evalWithinFollowedBy v (mk_node or_ n t l r) =
    let '(lo, ro, w) := align lp rp in
    let '(mode, inv) := or_switch lp rp in
    Returns (mkSet (positions (evalFollowedBy lp rp lo ro mode)) w inv) None.
Proof.
  cbn [evalWithinFollowedBy]. rewrite Hl, Hr. cbn [try_set].
  destruct (align lp rp) as [[lo ro] w], (or_switch lp rp) as [mode inv].
  by rewrite finish_evalFollowedBy.
Qed.

Lemma evalWithinFollowedBy_followedby :
  evalWithinFollowedBy v (mk_node followedby n t l r) =
    let lo := int_add n (width rp) in
    let '(mode, inv) := and_switch lp rp in
    Returns (mkSet (positions (evalFollowedBy lp rp lo 0 mode))
               (int_add lo (width lp)) inv) None.
Proof.
  cbn [evalWithinFollowedBy]. rewrite Hl, Hr. cbn [try_set]. cbv zeta.
  destruct (and_switch lp rp) as [mode inv].
  by rewrite finish_evalFollowedBy.
Qed.
End one_node.

(** C2: for an [and] or [followedby] node the merge runs in the mode the
    table's AND column gives for the operands' invert flags, and the result
    carries the table's invert flag; for an [or] node the same holds with the
    OR column.  The merge is the one the node runs: on the two operands'
    sets, with the node's own offsets and width. *)
Theorem merge_mode_selection (v : TSVector) (n : Z) (t : tsTerm)
    (l r : tsNode) (lp rp : tsPositionSet) :
  evalWithinFollowedBy v l = Returns lp None →
  evalWithinFollowedBy v r = Returns rp None →
  let common := Z.max (width lp) (width rp) in
  evalWithinFollowedBy v (mk_node and_ n t l r) =
    Returns (mkSet
      (positions (evalFollowedBy lp rp
                    (int_sub common (width lp)) (int_sub common (width rp))
                    (table_and (invert lp) (invert rp)).1))
      common (table_and (invert lp) (invert rp)).2) None ∧
  evalWithinFollowedBy v (mk_node followedby n t l r) =
    Returns (mkSet
      (positions (evalFollowedBy lp rp (int_add n (width rp)) 0
                    (table_and (invert lp) (invert rp)).1))
      (int_add (int_add n (width rp)) (width lp))
      (table_and (invert lp) (invert rp)).2) None ∧
  evalWithinFollowedBy v (mk_node or_ n t l r) =
    Returns (mkSet
      (positions (evalFollowedBy lp rp
                    (int_sub common (width lp)) (int_sub common (width rp))
                    (table_or (invert lp) (invert rp)).1))
      common (table_or (invert lp) (invert rp)).2) None.
Proof.
  intros Hl Hr. cbv zeta. split; [|split].
  - rewrite (evalWithinFollowedBy_and _ _ _ _ _ _ _ Hl Hr), and_switch_table,
      align_max. cbv zeta. by destruct (table_and _ _).
  - rewrite (evalWithinFollowedBy_followedby _ _ _ _ _ _ _ Hl Hr), and_switch_table.
    cbv zeta. by destruct (table_and _ _).
  - rewrite (evalWithinFollowedBy_or _ _ _ _ _ _ _ Hl Hr), or_switch_table,
      align_max. cbv zeta. by destruct (table_or _ _).
Qed.

Lemma merge_mode_selection_witness :
  evalWithinFollowedBy cat_dog (exact_leaf "cat")
    = Returns (mkSet (at_positions [1]) 0 false) None ∧
  evalWithinFollowedBy cat_dog (mk_node not_ 0 no_term (exact_leaf "dog") nil_node)
    = Returns (mkSet (at_positions [2]) 0 true) None ∧
  evalWithinFollowedBy cat_dog
    (mk_node followedby 1 no_term (exact_leaf "cat")
       (mk_node not_ 0 no_term (exact_leaf "dog") nil_node)) =
  Returns (mkSet
    (positions (evalFollowedBy (mkSet (at_positions [1]) 0 false)
                  (mkSet (at_positions [2]) 0 true) (int_add 1 0) 0 left_only))
    (int_add (int_add 1 0) 0) false) None.
Proof.
  split; [reflexivity|]. split; [reflexivity|].
  exact (proj1 (proj2 (merge_mode_selection cat_dog 1 no_term
                  (exact_leaf "cat")
                  (mk_node not_ 0 no_term (exact_leaf "dog") nil_node)
                  (mkSet (at_positions [1]) 0 false)
                  (mkSet (at_positions [2]) 0 true) eq_refl eq_refl))).
Defined.

(** C3: for [followedby] the right offset is 0, the left offset is the
    distance plus the right width and the width of the result is the left
    offset plus the left width; for [and] and [or] the common width is the
    larger of the two widths and each offset is the common width minus the
    operand's own.  These are the offsets of the merge the node runs, in the
    mode and with the invert flag that the merge-mode table gives for the
    operands' invert flags.  Sums and differences are those of Go's [int]. *)
Theorem offsets_and_width (v : TSVector) (distance : Z) (t : tsTerm)
    (l r : tsNode) (lp rp : tsPositionSet) :
  evalWithinFollowedBy v l = Returns lp None →
  evalWithinFollowedBy v r = Returns rp None →
  let common := Z.max (width lp) (width rp) in
  (let rOffset := 0 in
   let lOffset := int_add distance (width rp) in
   evalWithinFollowedBy v (mk_node followedby distance t l r) =
     Returns (mkSet (positions (evalFollowedBy lp rp lOffset rOffset
                                  (table_and (invert lp) (invert rp)).1))
                (int_add lOffset (width lp))
                (table_and (invert lp) (invert rp)).2) None) ∧
  (let lOffset := int_sub common (width lp) in
   let rOffset := int_sub common (width rp) in
   evalWithinFollowedBy v (mk_node and_ distance t l r) =
     Returns (mkSet (positions (evalFollowedBy lp rp lOffset rOffset
                                  (table_and (invert lp) (invert rp)).1))
                common (table_and (invert lp) (invert rp)).2) None) ∧
  (let lOffset := int_sub common (width lp) in
   let rOffset := int_sub common (width rp) in
   evalWithinFollowedBy v (mk_node or_ distance t l r) =
     Returns (mkSet (positions (evalFollowedBy lp rp lOffset rOffset
                                  (table_or (invert lp) (invert rp)).1))
                common (table_or (invert lp) (invert rp)).2) None).
Proof.
  intros Hl Hr. cbv zeta. split; [|split].
  - rewrite (evalWithinFollowedBy_followedby _ _ _ _ _ _ _ Hl Hr), and_switch_table.
    cbv zeta. by destruct (table_and (invert lp) (invert rp)) as [mode inv].
  - rewrite (evalWithinFollowedBy_and _ _ _ _ _ _ _ Hl Hr), align_max,
      and_switch_table. cbv zeta.
    by destruct (table_and (invert lp) (invert rp)) as [mode inv].
  - rewrite (evalWithinFollowedBy_or _ _ _ _ _ _ _ Hl Hr), align_max,
      or_switch_table. cbv zeta.
    by destruct (table_or (invert lp) (invert rp)) as [mode inv].
Qed.

Lemma offsets_and_width_witness :
  evalWithinFollowedBy cat_dog (exact_leaf "cat")
    = Returns (mkSet (at_positions [1]) 0 false) None ∧
  evalWithinFollowedBy cat_dog (exact_leaf "dog")
    = Returns (mkSet (at_positions [2]) 0 false) None ∧
  evalWithinFollowedBy cat_dog
    (mk_node followedby 1 no_term (exact_leaf "cat") (exact_leaf "dog")) =
  Returns (mkSet
    (positions (evalFollowedBy (mkSet (at_positions [1]) 0 false)
                  (mkSet (at_positions [2]) 0 false) (int_add 1 0) 0
                  intersection))
    (int_add (int_add 1 0) 0) false) None.
Proof.
  split; [reflexivity|]. split; [reflexivity|].
  exact (proj1 (offsets_and_width cat_dog 1 no_term
                  (exact_leaf "cat") (exact_leaf "dog")
                  (mkSet (at_positions [1]) 0 false)
                  (mkSet (at_positions [2]) 0 false) eq_refl eq_refl)).
Defined.

(** ** The boolean evaluator *)

(** C8: [and] with a false left operand returns false with no error, and
    [or] with a true left operand returns true with no error, whatever the
    right operand is, a nil pointer or a node with an unknown tag included:
    the right operand is not evaluated.  When the left operand does not
    decide the result, a right operand with an unknown tag yields the
    assertion failure. *)
Theorem short_circuit (v : TSVector) (n : Z) (t : tsTerm) (l_false l_true : tsNode) :
  evalNode v l_false = Returns false None →
  evalNode v l_true = Returns true None →
  (∀ r, evalNode v (mk_node and_ n t l_false r) = Returns false None) ∧
  (∀ r, evalNode v (mk_node or_ n t l_true r) = Returns true None) ∧
  (∀ k n' t' l' r',
     evalNode v (mk_node and_ n t l_true (mk_node (other_op k) n' t' l' r')) =
       Returns false (Some (AssertionFailed (other_op k)))) ∧
  (∀ k n' t' l' r',
     evalNode v (mk_node or_ n t l_false (mk_node (other_op k) n' t' l' r')) =
       Returns false (Some (AssertionFailed (other_op k)))).
Proof.
  intros Hf Ht.
  repeat split; intros; cbn [evalNode]; rewrite ?Hf, ?Ht; reflexivity.
Qed.

Lemma short_circuit_witness :
  evalNode cat_dog (exact_leaf "cow") = Returns false None ∧
  evalNode cat_dog (exact_leaf "cat") = Returns true None ∧
  evalNode cat_dog (mk_node and_ 0 no_term (exact_leaf "cow") bad_node)
    = Returns false None ∧
  evalNode cat_dog (mk_node or_ 0 no_term (exact_leaf "cat") nil_node)
    = Returns true None ∧
  evalNode cat_dog (mk_node and_ 0 no_term (exact_leaf "cat") bad_node)
    = Returns false (Some (AssertionFailed (other_op 7))).
Proof.
  split; [reflexivity|]. split; [reflexivity|].
  destruct (short_circuit cat_dog 0 no_term (exact_leaf "cow") (exact_leaf "cat")
              eq_refl eq_refl) as (Hand & Hor & Hbad & _).
  split; [apply Hand|]. split; [apply Hor | apply Hbad].
Defined.

(** ** Loops and binary search *)

Section search.
Context (n : nat) (f : nat → bool).
Hypothesis f_mono : ∀ i j, (i ≤ j)%nat → (j < n)%nat → f i = true → f j = true.

Lemma Search_loop_spec (fuel i j : nat) :
  (j - i ≤ fuel)%nat → (i ≤ j ≤ n)%nat →
  (∀ x, (x < i)%nat → f x = false) →
  ((j < n)%nat → f j = true) →
  let k := fst (iterate fuel (Search_body f) (i, j)) in
  (k ≤ n)%nat ∧ (∀ x, (x < k)%nat → f x = false) ∧ ((k < n)%nat → f k = true).
Proof.
  revert i j. induction fuel as [|fuel IH]; intros i j Hfuel Hij Hlow Hhigh.
  - assert (i = j) as -> by lia. simpl. auto with lia.
  - cbn [iterate]. destruct (Search_body f (i, j)) as [[i' j']|] eqn:Hbody.
    + unfold Search_body in Hbody.
      destruct (Nat.ltb_spec i j) as [Hlt|Hge]; [|done].
      assert (i ≤ (i + j) / 2 < j)%nat as Hh.
      { split; [apply Nat.div_le_lower_bound | apply Nat.Div0.div_lt_upper_bound]; lia. }
      remember ((i + j) / 2)%nat as h eqn:Eh. clear Eh.
      destruct (f h) eqn:Hf; cbn [negb] in Hbody; injection Hbody as <- <-.
      * apply IH; [lia | lia | done | done].
      * apply IH; [lia | lia | | done].
        intros x Hx. destruct (f x) eqn:Hfx; [|done].
        rewrite (f_mono x h) in Hf; [done | lia | lia | done].
    + unfold Search_body in Hbody.
      destruct (Nat.ltb_spec i j) as [Hlt|Hge].
      * by destruct (negb _).
      * assert (i = j) as -> by lia. simpl. auto with lia.
Qed.

Lemma Search_spec :
  (Search n f ≤ n)%nat ∧
  (∀ x, (x < Search n f)%nat → f x = false) ∧
  ((Search n f < n)%nat → f (Search n f) = true).
Proof.
  unfold Search. apply Search_loop_spec; [lia | lia | lia | lia].
Qed.

(** The loop of [sort.Search] has ended when the iterations are used up. *)
Lemma Search_loop_exits (fuel i j : nat) :
  (j - i ≤ fuel)%nat →
  Search_body f (iterate fuel (Search_body f) (i, j)) = None.
Proof.
  revert i j. induction fuel as [|fuel IH]; intros i j Hfuel.
  - simpl. destruct (Nat.ltb_spec i j); [lia | done].
  - cbn [iterate]. destruct (Search_body f (i, j)) as [[i' j']|] eqn:Hbody; [|done].
    unfold Search_body in Hbody.
    destruct (Nat.ltb_spec i j) as [Hlt|Hge]; [|done].
    assert (i ≤ (i + j) / 2 < j)%nat as Hh.
    { split; [apply Nat.div_le_lower_bound | apply Nat.Div0.div_lt_upper_bound]; lia. }
    remember ((i + j) / 2)%nat as h eqn:Eh. clear Eh.
    destruct (f h); cbn [negb] in Hbody;
      injection Hbody as <- <-; apply IH; lia.
Qed.
End search.

(** [sort.Search] always returns: its loop has ended after [n] iterations. *)
Lemma Search_exits (n : nat) (f : nat → bool) :
  Search_body f (iterate n (Search_body f) (0%nat, n)) = None.
Proof. apply Search_loop_exits. lia. Qed.

(** ** The order of strings *)

Lemma ascii_compare_refl (a : ascii) : Ascii_as_OT.compare a a = Eq.
Proof.
  destruct (Ascii_as_OT.compare_spec a a) as [_|H|H]; [done| |];
    by apply (irreflexivity Ascii_as_OT.lt) in H.
Qed.

Lemma ascii_compare_eq (a b : ascii) : Ascii_as_OT.compare a b = Eq → a = b.
Proof. by destruct (Ascii_as_OT.compare_spec a b). Qed.

Lemma string_compare_refl (s : string) : String_as_OT.compare s s = Eq.
Proof.
  induction s as [|a s IH]; simpl; [done|]. by rewrite ascii_compare_refl.
Qed.

Lemma string_ge_spec (a b : string) :
  string_ge a b = true ↔ ¬ String_as_OT.lt a b.
Proof.
  unfold string_ge, String_as_OT.lt.
  destruct (String_as_OT.compare a b); split; congruence.
Qed.

Lemma string_ge_refl (a : string) : string_ge a a = true.
Proof. unfold string_ge. by rewrite string_compare_refl. Qed.

(** The order is transitive: [b <= a] and [a < c] give [b <= c]. *)
Lemma string_ge_lt_trans (a b c : string) :
  string_ge a b = true → String_as_OT.lt a c → string_ge c b = true.
Proof.
  rewrite !string_ge_spec. intros Hab Hac Hcb. apply Hab.
  by apply (transitivity (R := String_as_OT.lt) Hac).
Qed.

Lemma prefix_eqb (a : ascii) (t s : string) :
  String.prefix (String a t) (String a s) = String.prefix t s.
Proof. simpl. by destruct (ascii_dec a a). Qed.

Lemma prefix_cons_inv (a b : ascii) (t s : string) :
  String.prefix (String a t) (String b s) = true → a = b ∧ String.prefix t s = true.
Proof. simpl. by destruct (ascii_dec a b). Qed.

(** A string is at least each of its prefixes. *)
Lemma prefix_ge (t y : string) : String.prefix t y = true → string_ge y t = true.
Proof.
  revert y. induction t as [|a t IH]; intros y Hpre.
  - unfold string_ge. by destruct y.
  - destruct y as [|b y]; [done|].
    apply prefix_cons_inv in Hpre as [-> Hpre].
    specialize (IH y Hpre). unfold string_ge in *. simpl.
    by rewrite ascii_compare_refl.
Qed.

(** The strings with a given prefix are an interval that starts at the
    prefix: what lies between the prefix and a string that has it, has it. *)
Lemma prefix_convex (t x y : string) :
  String.prefix t y = true → string_ge x t = true → String_as_OT.lt x y →
  String.prefix t x = true.
Proof.
  revert x y. induction t as [|a t IH]; intros x y Hpre Hge Hlt.
  - by destruct x.
  - destruct y as [|b y]; [done|].
    apply prefix_cons_inv in Hpre as [<- Hpre].
    destruct x as [|c x]; [done|].
    unfold string_ge, String_as_OT.lt in *. simpl in Hge, Hlt.
    destruct (Ascii_as_OT.compare c a) eqn:Hca; [|done|done].
    apply ascii_compare_eq in Hca as ->.
    rewrite prefix_eqb. by apply (IH x y).
Qed.

(** ** Looking a lexeme up in a sorted vector *)

Global Instance lexeme_lt_trans : Transitive lexeme_lt.
Proof.
  intros a b c. unfold lexeme_lt. apply (transitivity (R := String_as_OT.lt)).
Qed.

Lemma StronglySorted_lookup {A} (R : relation A) (xs : list A) (i j : nat) (a b : A) :
  StronglySorted R xs → xs !! i = Some a → xs !! j = Some b → (i < j)%nat → R a b.
Proof.
  intros Hs. revert i j. induction Hs as [|x xs Hs IH Hall]; intros i j Hi Hj Hij.
  - done.
  - destruct j as [|j]; [lia|]. simpl in Hj. destruct i as [|i].
    + injection Hi as ->. rewrite Forall_forall in Hall.
      apply Hall. by eapply list_elem_of_lookup_2.
    + simpl in Hi. apply (IH i j); [done | done | lia].
Qed.

Section lookup.
Context (v : TSVector) (target : string).
Hypothesis v_sorted : sorted_by_lexeme v.

Lemma lexeme_ge_at_lookup (i : nat) (t : tsTerm) :
  v !! i = Some t → lexeme_ge_at v target i = string_ge (lexeme t) target.
Proof. unfold lexeme_ge_at. by intros ->. Qed.

Lemma vector_lookup_lt (i j : nat) (a b : tsTerm) :
  v !! i = Some a → v !! j = Some b → (i < j)%nat → lexeme_lt a b.
Proof.
  apply StronglySorted_lookup. by apply Sorted_StronglySorted; [apply _|].
Qed.

Lemma lexeme_ge_at_mono (i j : nat) :
  (i ≤ j)%nat → (j < length v)%nat →
  lexeme_ge_at v target i = true → lexeme_ge_at v target j = true.
Proof.
  intros Hij Hj.
  destruct (v !! i) as [a|] eqn:Ha; [|by unfold lexeme_ge_at; rewrite Ha].
  destruct (lookup_lt_is_Some_2 v j Hj) as [b Hb].
  rewrite (lexeme_ge_at_lookup i a Ha), (lexeme_ge_at_lookup j b Hb).
  destruct (decide (i = j)) as [->|Hne]; [congruence|].
  intros Hge. eapply string_ge_lt_trans; [exact Hge|].
  apply (vector_lookup_lt i j); [done | done | lia].
Qed.

(** [sort.Search] stops at the first entry that is at least the target: any
    entry at least the target sits at that index or above, and the entry at
    that index is at least the target. *)
Lemma Search_first_ge (k : nat) (t : tsTerm) :
  v !! k = Some t → string_ge (lexeme t) target = true →
  ∃ t0, v !! Search (length v) (lexeme_ge_at v target) = Some t0 ∧
        string_ge (lexeme t0) target = true ∧
        (Search (length v) (lexeme_ge_at v target) ≤ k)%nat.
Proof.
  intros Hk Hge.
  destruct (Search_spec (length v) (lexeme_ge_at v target) lexeme_ge_at_mono)
    as (Hle & Hlow & Hhigh).
  set (i := Search (length v) (lexeme_ge_at v target)) in *.
  assert (i ≤ k)%nat as Hik.
  { destruct (decide (i ≤ k)%nat) as [|Hgt]; [done|].
    specialize (Hlow k ltac:(lia)).
    rewrite (lexeme_ge_at_lookup k t Hk) in Hlow. congruence. }
  assert (i < length v)%nat as Hi.
  { apply lookup_lt_Some in Hk. lia. }
  specialize (Hhigh Hi).
  destruct (lookup_lt_is_Some_2 v i Hi) as [t0 Ht0].
  rewrite (lexeme_ge_at_lookup i t0 Ht0) in Hhigh. by exists t0.
Qed.

(** An exact lookup finds the entry with the target lexeme when there is one. *)
Lemma Search_exact (k : nat) (t : tsTerm) :
  v !! k = Some t → lexeme t = target →
  v !! Search (length v) (lexeme_ge_at v target) = Some t.
Proof.
  intros Hk Heq.
  destruct (Search_first_ge k t Hk) as (t0 & Ht0 & Hge & Hik).
  { rewrite Heq. apply string_ge_refl. }
  destruct (decide (Search (length v) (lexeme_ge_at v target) = k)) as [Hi|Hne].
  { by rewrite Hi. }
  exfalso. apply string_ge_spec in Hge. apply Hge. rewrite <- Heq.
  eapply (vector_lookup_lt _ k t0 t); [exact Ht0 | done | lia].
Qed.

(** A prefix lookup stops at an entry with the prefix when there is one. *)
Lemma Search_prefix (k : nat) (t : tsTerm) :
  v !! k = Some t → HasPrefix (lexeme t) target = true →
  ∃ t0, v !! Search (length v) (lexeme_ge_at v target) = Some t0 ∧
        HasPrefix (lexeme t0) target = true.
Proof.
  intros Hk Hpre.
  destruct (Search_first_ge k t Hk) as (t0 & Ht0 & Hge & Hik).
  { by apply prefix_ge. }
  exists t0. split; [done|].
  destruct (decide (Search (length v) (lexeme_ge_at v target) = k)) as [Hi|Hne].
  { rewrite Hi in Ht0. congruence. }
  apply (prefix_convex target _ (lexeme t)); [done | done |].
  eapply (vector_lookup_lt _ k t0 t); [exact Ht0 | done | lia].
Qed.
End lookup.

(** C7: on a document vector (sorted and unique by lexeme) a leaf evaluates
    without error; without the prefix marker it is true exactly when its
    lexeme is the lexeme of an entry, with the marker exactly when some
    entry's lexeme has the leaf's lexeme as a prefix. *)
Theorem leaf_exactness (v : TSVector) (term : tsTerm) (n : Z) (l r : tsNode) :
  sorted_by_lexeme v →
  ∃ b : bool,
    EvalTSQuery (mkQuery (leaf term n l r)) v = Returns b None ∧
    (b = true ↔
     if prefixMatch term
     then ∃ t, t ∈ v ∧ HasPrefix (lexeme t) (lexeme term) = true
     else ∃ t, t ∈ v ∧ lexeme t = lexeme term).
Proof.
  intros Hsorted. exists (evalLeaf v term). split; [done|].
  unfold evalLeaf. destruct (prefixMatch term); split.
  - destruct (v !! Search _ _) as [t0|] eqn:Ht0; [|done].
    intros Hpre. exists t0. split; [|done]. by eapply list_elem_of_lookup_2.
  - intros (t & [k Hk]%list_elem_of_lookup_1 & Hpre).
    destruct (Search_prefix v (lexeme term) Hsorted k t Hk Hpre) as (t0 & -> & Ht0).
    done.
  - destruct (v !! Search _ _) as [t0|] eqn:Ht0; [|done].
    intros Heq%String.eqb_eq. exists t0. split; [|done].
    by eapply list_elem_of_lookup_2.
  - intros (t & [k Hk]%list_elem_of_lookup_1 & Heq).
    rewrite (Search_exact v (lexeme term) Hsorted k t Hk Heq).
    by apply String.eqb_eq.
Qed.

Lemma leaf_exactness_witness :
  sorted_by_lexeme cat_dog ∧
  ∃ b : bool,
    EvalTSQuery (mkQuery (prefix_leaf "ca")) cat_dog = Returns b None ∧
    (b = true ↔ ∃ t, t ∈ cat_dog ∧ HasPrefix (lexeme t) "ca" = true).
Proof.
  assert (sorted_by_lexeme cat_dog) as Hsorted by (repeat constructor).
  split; [exact Hsorted|].
  exact (leaf_exactness cat_dog (mkTerm "ca" [mkPos 0 weightStar]) 0
           nil_node nil_node Hsorted).
Defined.

(** ** The merge loop *)

Lemma exhausted_lookup {A} (ps : list A) (i : nat) :
  (length ps <=? i)%nat = match ps !! i with Some _ => false | None => true end.
Proof.
  destruct (ps !! i) eqn:H.
  - apply lookup_lt_Some in H. apply Nat.leb_gt. lia.
  - apply lookup_ge_None in H. by apply Nat.leb_le.
Qed.

Lemma drop_lookup_None {A} (ps : list A) (i : nat) :
  ps !! i = None → drop i ps = [].
Proof. intros H%lookup_ge_None. by apply drop_ge. Qed.

Lemma emit_emitted mode flag p ret :
  emit mode flag p ret = ret ++ emitted mode flag p.
Proof.
  unfold emit, emitted. destruct (0 <? Z.land mode flag); [done|].
  by rewrite app_nil_r.
Qed.

Section merge_equations.
Context (lo ro : Z) (mode : emitMode).

Lemma merge_nil_nil : merge lo ro mode [] [] = [].
Proof. done. Qed.

Lemma merge_nil_cons y rs :
  merge lo ro mode [] (y :: rs) =
    if Z.land mode emitRightUnmatched =? 0 then []
    else if MaxInt64 =? int_add (position y) ro
    then emitted mode emitMatches (int_add (position y) ro) ++ merge lo ro mode [] rs
    else emitted mode emitRightUnmatched (int_add (position y) ro)
           ++ merge lo ro mode [] rs.
Proof. done. Qed.

Lemma merge_cons_nil x ls :
  merge lo ro mode (x :: ls) [] =
    if Z.land mode emitLeftUnmatched =? 0 then []
    else if int_add (position x) lo <? MaxInt64
    then emitted mode emitLeftUnmatched (int_add (position x) lo)
           ++ merge lo ro mode ls []
    else emitted mode emitMatches MaxInt64 ++ merge lo ro mode ls [].
Proof. done. Qed.

Lemma merge_cons_cons x ls y rs :
  merge lo ro mode (x :: ls) (y :: rs) =
    if int_add (position x) lo <? int_add (position y) ro
    then emitted mode emitLeftUnmatched (int_add (position x) lo)
           ++ merge lo ro mode ls (y :: rs)
    else if int_add (position x) lo =? int_add (position y) ro
    then emitted mode emitMatches (int_add (position y) ro) ++ merge lo ro mode ls rs
    else emitted mode emitRightUnmatched (int_add (position y) ro)
           ++ merge lo ro mode (x :: ls) rs.
Proof. done. Qed.
End merge_equations.

Section merge_loop.
Context (lp rp : tsPositionSet) (lo ro : Z) (mode : emitMode).

Local Abbreviation body := (evalFollowedBy_body lp rp lo ro mode).
Local Abbreviation remaining st :=
  (length (positions lp) - lIdx st + (length (positions rp) - rIdx st))%nat.

Local Ltac next_iteration IH :=
  match goal with
  | |- context [iterate _ _ ?st] =>
      let H1 := fresh in let H2 := fresh in
      destruct (IH st) as [H1 H2]; [cbn [lIdx rIdx]; lia|];
      split; [rewrite H1|exact H2]; cbn [lIdx rIdx ret];
      rewrite emit_emitted, <- ?app_assoc, ?Nat.add_1_r;
      repeat match goal with
             | H : ?ps !! ?k = Some _ |- context [drop ?k ?ps] =>
                 rewrite (drop_S _ _ _ H)
             | H : ?ps !! ?k = None |- context [drop ?k ?ps] =>
                 rewrite (drop_lookup_None _ _ H)
             end
  end.

(** The loop computes [merge] on what the cursors have not passed yet, and
    it has been left when the iterations are used up. *)
Lemma evalFollowedBy_loop_merge (fuel : nat) (st : mergeState) :
  (remaining st ≤ fuel)%nat →
  ret (iterate fuel body st) =
    ret st ++ merge lo ro mode (drop (lIdx st) (positions lp))
                 (drop (rIdx st) (positions rp)) ∧
  body (iterate fuel body st) = None.
Proof.
  revert st. induction fuel as [|fuel IH]; intros [i j acc] Hfuel;
    cbn [lIdx rIdx ret] in *.
  - assert (positions lp !! i = None) as Hl by (apply lookup_ge_None; lia).
    assert (positions rp !! j = None) as Hr by (apply lookup_ge_None; lia).
    rewrite (drop_lookup_None _ _ Hl), (drop_lookup_None _ _ Hr).
    cbn [iterate merge]. rewrite app_nil_r. split; [done|].
    unfold evalFollowedBy_body. cbn [lIdx rIdx].
    by rewrite !exhausted_lookup, Hl, Hr.
  - cbn [iterate].
    destruct (body (mkMerge i j acc)) as [st'|] eqn:Hbody;
      unfold evalFollowedBy_body, cursor in Hbody; cbn [lIdx rIdx ret] in Hbody;
      rewrite !exhausted_lookup in Hbody;
      destruct (positions lp !! i) as [x|] eqn:Hl;
      destruct (positions rp !! j) as [y|] eqn:Hr;
      cbn [andb] in Hbody;
      rewrite ?(drop_S _ _ _ Hl), ?(drop_S _ _ _ Hr),
        ?(drop_lookup_None _ _ Hl), ?(drop_lookup_None _ _ Hr);
      (pose proof (lookup_lt_Some _ _ _ Hl) as Hi
       || pose proof (proj1 (lookup_ge_None _ _) Hl) as Hi);
      (pose proof (lookup_lt_Some _ _ _ Hr) as Hj
       || pose proof (proj1 (lookup_ge_None _ _) Hr) as Hj);
      rewrite ?merge_cons_cons, ?merge_cons_nil, ?merge_nil_cons, ?merge_nil_nil.
    + (* both sides have an entry *)
      destruct (int_add (position x) lo <? int_add (position y) ro);
        [|destruct (int_add (position x) lo =? int_add (position y) ro)];
        injection Hbody as <-; next_iteration IH; done.
    + (* the right side is exhausted *)
      destruct (Z.land mode emitLeftUnmatched =? 0); [done|].
      pose proof (int_wrap_range (position x + lo)) as Hrange.
      fold (int_add (position x) lo) in Hrange.
      destruct (Z.ltb_spec (int_add (position x) lo) MaxInt64) as [Hlt'|Hge'].
      * injection Hbody as <-. by next_iteration IH.
      * assert (int_add (position x) lo = MaxInt64) as Hmax by lia.
        rewrite Hmax, Z.eqb_refl in Hbody. injection Hbody as <-. next_iteration IH.
        by rewrite (drop_ge (positions rp) (S j)) by lia.
    + (* the left side is exhausted *)
      destruct (Z.land mode emitRightUnmatched =? 0); [done|].
      pose proof (int_wrap_range (position y + ro)) as Hrange.
      fold (int_add (position y) ro) in Hrange.
      destruct (Z.ltb_spec MaxInt64 (int_add (position y) ro)) as [Hlt'|Hge']; [lia|].
      destruct (Z.eqb_spec MaxInt64 (int_add (position y) ro)) as [Hmax|Hmax];
        injection Hbody as <-; next_iteration IH;
        rewrite ?(drop_ge (positions lp) (S i)) by lia;
        done.
    + done.
    + (* no iteration is left to make *)
      destruct (int_add (position x) lo <? int_add (position y) ro);
        [|destruct (int_add (position x) lo =? int_add (position y) ro)]; done.
    + destruct (Z.land mode emitLeftUnmatched =? 0) eqn:Hmode; [|
        destruct (int_add (position x) lo <? MaxInt64);
        [|destruct (int_add (position x) lo =? MaxInt64)]; done].
      cbn [lIdx rIdx ret]. rewrite app_nil_r. split; [done|].
      unfold evalFollowedBy_body, cursor. cbn [lIdx rIdx].
      rewrite !exhausted_lookup.
      destruct (positions lp !! i) eqn:Hl'; [|apply lookup_ge_None in Hl'; lia].
      destruct (positions rp !! j) eqn:Hr'; [apply lookup_lt_Some in Hr'; lia|].
      cbn [andb]. by rewrite Hmode.
    + destruct (Z.land mode emitRightUnmatched =? 0) eqn:Hmode; [|
        destruct (MaxInt64 <? int_add (position y) ro);
        [|destruct (MaxInt64 =? int_add (position y) ro)]; done].
      cbn [lIdx rIdx ret]. rewrite app_nil_r. split; [done|].
      unfold evalFollowedBy_body, cursor. cbn [lIdx rIdx].
      rewrite !exhausted_lookup.
      destruct (positions lp !! i) eqn:Hl'; [apply lookup_lt_Some in Hl'; lia|].
      destruct (positions rp !! j) eqn:Hr'; [|apply lookup_ge_None in Hr'; lia].
      cbn [andb]. by rewrite Hmode.
    + cbn [lIdx rIdx ret]. rewrite app_nil_r. split; [done|].
      unfold evalFollowedBy_body. cbn [lIdx rIdx].
      rewrite !exhausted_lookup.
      destruct (positions lp !! i) eqn:Hl'; [apply lookup_lt_Some in Hl'; lia|].
      destruct (positions rp !! j) eqn:Hr'; [apply lookup_lt_Some in Hr'; lia|].
      done.
Qed.

(** [evalFollowedBy] returns the merge of the two lists. *)
Lemma evalFollowedBy_merge :
  evalFollowedBy lp rp lo ro mode =
    mkSet (merge lo ro mode (positions lp) (positions rp)) 0 false.
Proof.
  unfold evalFollowedBy.
  destruct (evalFollowedBy_loop_merge
              (length (positions lp) + length (positions rp)) (mkMerge 0 0 []))
    as [-> _]; [cbn [lIdx rIdx]; lia|].
  done.
Qed.

(** The loop of [evalFollowedBy] has been left when it stops. *)
Lemma evalFollowedBy_loop_exits :
  body (iterate (length (positions lp) + length (positions rp)) body
          (mkMerge 0 0 [])) = None.
Proof. apply evalFollowedBy_loop_merge. cbn [lIdx rIdx]. lia. Qed.
End merge_loop.

(** ** Intersections *)

(** With only [emitMatches] asked for, the merge of two lists whose adjusted
    positions ascend is non-empty exactly when an adjusted position of the
    left list is one of the right list. *)
Lemma merge_matches_nonempty (lo ro : Z) (ls rs : list tsPosition) :
  StronglySorted (λ a b, int_add (position a) lo <= int_add (position b) lo) ls →
  StronglySorted (λ a b, int_add (position a) ro <= int_add (position b) ro) rs →
  merge lo ro emitMatches ls rs ≠ [] ↔
  ∃ x y, x ∈ ls ∧ y ∈ rs ∧ int_add (position x) lo = int_add (position y) ro.
Proof.
  intros Hls. revert rs.
  induction ls as [|x ls IHl]; intros rs Hrs.
  - destruct rs as [|y rs]; [rewrite merge_nil_nil | rewrite merge_nil_cons];
      (split; [done|]); intros (x' & y' & Hx & _); by apply elem_of_nil in Hx.
  - apply StronglySorted_cons in Hls as [Hx Hls]. specialize (IHl Hls).
    induction rs as [|y rs IHr].
    + rewrite merge_cons_nil. split; [done|].
      intros (x' & y' & _ & Hy & _). by apply elem_of_nil in Hy.
    + pose proof Hrs as Hrs'. apply StronglySorted_cons in Hrs' as [Hy Hrs'].
      specialize (IHr Hrs'). rewrite merge_cons_cons.
      destruct (Z.ltb_spec (int_add (position x) lo) (int_add (position y) ro))
        as [Hlt|Hge].
      * (* the left entry is below everything on the right *)
        unfold emitted. cbn [app]. rewrite (IHl (y :: rs) Hrs). simpl.
        split.
        -- intros (x' & y' & Hx' & Hy' & Heq). exists x', y'.
           split; [by apply elem_of_cons; right | done].
        -- intros (x' & y' & Hx' & Hy' & Heq). exists x', y'.
           apply elem_of_cons in Hx' as [->|Hx']; [|done]. exfalso.
           apply elem_of_cons in Hy' as [->|Hy']; [lia|].
           rewrite Forall_forall in Hy. specialize (Hy y' Hy'). simpl in Hy. lia.
      * destruct (Z.eqb_spec (int_add (position x) lo) (int_add (position y) ro))
          as [Heq|Hne].
        -- split.
           ++ intros _. exists x, y. by rewrite !elem_of_cons; auto.
           ++ intros _. unfold emitted. by cbn.
        -- (* the right entry is below everything on the left *)
           unfold emitted. cbn [app]. simpl. rewrite IHr.
           split.
           ++ intros (x' & y' & Hx' & Hy' & Heq). exists x', y'.
              split; [done|]. split; [by apply elem_of_cons; right | done].
           ++ intros (x' & y' & Hx' & Hy' & Heq). exists x', y'.
              split; [done|].
              apply elem_of_cons in Hy' as [->|Hy']; [|done]. exfalso.
              apply elem_of_cons in Hx' as [->|Hx']; [lia|].
              rewrite Forall_forall in Hx. specialize (Hx x' Hx'). simpl in Hx. lia.
Qed.

(** ** Exact leaves under the position-set evaluator *)

Lemma evalLeafWithin_shape (v : TSVector) (term : tsTerm) :
  width (evalLeafWithin v term) = 0 ∧ invert (evalLeafWithin v term) = false.
Proof.
  unfold evalLeafWithin.
  destruct (v !! Search _ _) as [t|]; [|done].
  destruct (prefixMatch term); [done|].
  by destruct (negb _).
Qed.

Section exact_leaf.
Context (v : TSVector) (term : tsTerm).
Hypothesis v_sorted : sorted_by_lexeme v.
Hypothesis exact : prefixMatch term = false.

(** An exact leaf returns the position list of the entry with its lexeme,
    as it is in the vector. *)
Lemma evalLeafWithin_exact_found (t : tsTerm) :
  t ∈ v → lexeme t = lexeme term →
  positions (evalLeafWithin v term) = term_positions t.
Proof.
  intros [k Hk]%list_elem_of_lookup_1 Heq. unfold evalLeafWithin.
  rewrite (Search_exact v (lexeme term) v_sorted k t Hk Heq), exact.
  apply String.eqb_eq in Heq. by rewrite Heq.
Qed.

Lemma evalLeafWithin_exact_cases :
  positions (evalLeafWithin v term) = [] ∨
  ∃ t, t ∈ v ∧ lexeme t = lexeme term ∧
       positions (evalLeafWithin v term) = term_positions t.
Proof.
  unfold evalLeafWithin.
  destruct (v !! Search _ _) as [t|] eqn:Ht; [|by left].
  rewrite exact. destruct (String.eqb_spec (lexeme t) (lexeme term)) as [Heq|Hne].
  - right. exists t. split; [by eapply list_elem_of_lookup_2 | done].
  - by left.
Qed.

Lemma evalLeafWithin_exact_occurs (p : Z) :
  p ∈ position <$> positions (evalLeafWithin v term) ↔ occurs v (lexeme term) p.
Proof.
  split.
  - destruct evalLeafWithin_exact_cases as [->|(t & Ht & Heq & ->)].
    + intros H. by apply elem_of_nil in H.
    + intros Hp. by exists t.
  - intros (t & Ht & Heq & Hp). by rewrite (evalLeafWithin_exact_found t Ht Heq).
Qed.

Lemma evalLeafWithin_exact_uint16 :
  uint16_positions v →
  Forall (λ p, is_uint16 (position p)) (positions (evalLeafWithin v term)).
Proof.
  intros Hv. destruct evalLeafWithin_exact_cases as [->|(t & Ht & _ & ->)]; auto.
Qed.

Lemma evalLeafWithin_exact_ascending :
  ascending_positions v →
  Sorted Z.le (position <$> positions (evalLeafWithin v term)).
Proof.
  intros Hv. destruct evalLeafWithin_exact_cases as [->|(t & Ht & _ & ->)];
    [constructor | auto].
Qed.
End exact_leaf.

(** Ascending 16-bit positions stay in ascending order when an offset that
    leaves room for them is added. *)
Lemma ascending_adjusted (offset : Z) (ps : list tsPosition) :
  distance_in_range offset →
  Forall (λ p, is_uint16 (position p)) ps →
  Sorted Z.le (position <$> ps) →
  StronglySorted (λ a b, int_add (position a) offset <= int_add (position b) offset) ps.
Proof.
  unfold distance_in_range, MaxInt64. intros Hoff Hrange Hsorted.
  apply Sorted_StronglySorted in Hsorted; [|apply _].
  induction ps as [|a ps IH]; [constructor|].
  rewrite fmap_cons in Hsorted.
  apply StronglySorted_cons in Hsorted as [Ha Hsorted].
  apply Forall_cons in Hrange as [Hra Hrange].
  constructor; [by apply IH|].
  rewrite Forall_forall in Ha. rewrite Forall_forall in Hrange.
  apply Forall_forall. intros b Hb.
  specialize (Ha (position b) ltac:(by apply list_elem_of_fmap_2)).
  specialize (Hrange b Hb). unfold is_uint16 in *. unfold int_add.
  rewrite !int_wrap_small; unfold MaxInt64; lia.
Qed.

Lemma int_add_uint16 (p offset : Z) :
  is_uint16 p → distance_in_range offset → int_add p offset = p + offset.
Proof.
  unfold is_uint16, distance_in_range, int_add, MaxInt64. intros Hp Hoff.
  apply int_wrap_small. unfold MaxInt64. lia.
Qed.

Lemma distance_in_range_0 : distance_in_range 0.
Proof. unfold distance_in_range, MaxInt64. lia. Qed.

Lemma evalWithinFollowedBy_leaf (v : TSVector) (term : tsTerm) (n : Z) (l r : tsNode) :
  evalWithinFollowedBy v (leaf term n l r) = Returns (evalLeafWithin v term) None.
Proof. done. Qed.

Lemma evalNode_followedby (v : TSVector) (n : Z) (t : tsTerm) (l r : tsNode)
    (ps : tsPositionSet) :
  evalWithinFollowedBy v (mk_node followedby n t l r) = Returns ps None →
  evalNode v (mk_node followedby n t l r) =
    Returns (0 <? length (positions ps))%nat None.
Proof. intros H. cbn [evalNode]. by rewrite H. Qed.

Lemma nonempty_length {A} (xs : list A) : (0 <? length xs)%nat = true ↔ xs ≠ [].
Proof. destruct xs; simpl; split; (done || lia || congruence). Qed.

(** C1, amended: on a document vector whose position lists are in ascending
    order, [followed_by] of two exact leaves at distance [d] evaluates
    without error, and to true exactly when the left lexeme occurs at some
    position [p] and the right lexeme at [p + d]. *)
Theorem followed_by_exact_leaves (v : TSVector) (lterm rterm t : tsTerm)
    (d nl nr : Z) (ll lr rl rr : tsNode) :
  sorted_by_lexeme v → uint16_positions v → ascending_positions v →
  distance_in_range d →
  prefixMatch lterm = false → prefixMatch rterm = false →
  ∃ b : bool,
    EvalTSQuery
      (mkQuery (mk_node followedby d t (leaf lterm nl ll lr) (leaf rterm nr rl rr))) v
      = Returns b None ∧
    (b = true ↔
     ∃ p, occurs v (lexeme lterm) p ∧ occurs v (lexeme rterm) (p + d)).
Proof.
  intros Hsorted Hrange Hasc Hd Hl Hr. unfold EvalTSQuery. cbn [root].
  pose proof (evalWithinFollowedBy_followedby v d t _ _ _ _
    (evalWithinFollowedBy_leaf v lterm nl ll lr)
    (evalWithinFollowedBy_leaf v rterm nr rl rr)) as Heval.
  cbv zeta in Heval. unfold and_switch in Heval.
  destruct (evalLeafWithin_shape v lterm) as [Hwl Hil].
  destruct (evalLeafWithin_shape v rterm) as [Hwr Hir].
  rewrite Hil, Hir, Hwr in Heval. cbn [andb] in Heval.
  assert (int_add d 0 = d) as Hd0.
  { unfold int_add. rewrite Z.add_0_r. apply int_wrap_small.
    unfold distance_in_range, MaxInt64 in *. lia. }
  rewrite Hd0, evalFollowedBy_merge in Heval. cbn [positions] in Heval.
  rewrite (evalNode_followedby _ _ _ _ _ _ Heval). cbn [positions].
  eexists. split; [reflexivity|].
  pose proof (evalLeafWithin_exact_uint16 v lterm Hl Hrange) as Hlu.
  pose proof (evalLeafWithin_exact_uint16 v rterm Hr Hrange) as Hru.
  rewrite nonempty_length, merge_matches_nonempty.
  - split.
    + intros (x & y & Hx & Hy & Heq). exists (position x).
      rewrite Forall_forall in Hlu. rewrite Forall_forall in Hru.
      rewrite (int_add_uint16 _ _ (Hlu x Hx) Hd) in Heq.
      rewrite (int_add_uint16 _ _ (Hru y Hy) distance_in_range_0) in Heq.
      rewrite Heq, Z.add_0_r.
      split; apply evalLeafWithin_exact_occurs; try done;
        by apply list_elem_of_fmap_2.
    + intros (p & Hp & Hq).
      apply (evalLeafWithin_exact_occurs v lterm Hsorted Hl) in Hp.
      apply (evalLeafWithin_exact_occurs v rterm Hsorted Hr) in Hq.
      apply list_elem_of_fmap in Hp as (x & -> & Hx).
      apply list_elem_of_fmap in Hq as (y & Hxy & Hy).
      exists x, y. split; [done|]. split; [done|].
      rewrite Forall_forall in Hlu. rewrite Forall_forall in Hru.
      rewrite (int_add_uint16 _ _ (Hlu x Hx) Hd).
      rewrite (int_add_uint16 _ _ (Hru y Hy) distance_in_range_0). lia.
  - apply ascending_adjusted; [done | done |].
    by apply evalLeafWithin_exact_ascending.
  - apply ascending_adjusted; [apply distance_in_range_0 | done |].
    by apply evalLeafWithin_exact_ascending.
Qed.

Lemma uint16_positions_Forall (v : TSVector) :
  Forall (λ t, Forall (λ p, is_uint16 (position p)) (term_positions t)) v →
  uint16_positions v.
Proof. intros H t Ht. rewrite Forall_forall in H. by apply H. Qed.

Lemma ascending_positions_Forall (v : TSVector) :
  Forall (λ t, Sorted Z.le (position <$> term_positions t)) v →
  ascending_positions v.
Proof. intros H t Ht. rewrite Forall_forall in H. by apply H. Qed.

Lemma cat_dog_sorted : sorted_by_lexeme cat_dog.
Proof. repeat constructor. Qed.

Lemma cat_dog_uint16 : uint16_positions cat_dog.
Proof. apply uint16_positions_Forall. repeat constructor; done. Qed.

Lemma cat_dog_ascending : ascending_positions cat_dog.
Proof. apply ascending_positions_Forall. repeat constructor. Qed.

Lemma followed_by_exact_leaves_witness :
  sorted_by_lexeme cat_dog ∧ uint16_positions cat_dog ∧
  ascending_positions cat_dog ∧ distance_in_range 1 ∧
  ∃ b : bool,
    EvalTSQuery
      (mkQuery (mk_node followedby 1 no_term (exact_leaf "cat") (exact_leaf "dog")))
      cat_dog = Returns b None ∧
    (b = true ↔ ∃ p, occurs cat_dog "cat" p ∧ occurs cat_dog "dog" (p + 1)).
Proof.
  assert (distance_in_range 1) as Hd by (unfold distance_in_range, MaxInt64; lia).
  split; [exact cat_dog_sorted|]. split; [exact cat_dog_uint16|].
  split; [exact cat_dog_ascending|]. split; [exact Hd|].
  exact (followed_by_exact_leaves cat_dog (mkTerm "cat" []) (mkTerm "dog" []) no_term
           1 0 0 nil_node nil_node nil_node nil_node
           cat_dog_sorted cat_dog_uint16 cat_dog_ascending Hd eq_refl eq_refl).
Defined.

(** C1 as stated fails: the vector [{"a": [5, 1], "b": [2]}] is sorted and
    unique by lexeme and its positions fit 16 bits, "a" occurs at 1 and "b"
    at 2, and yet [a <1> b] does not evaluate to true. *)
Lemma followed_by_unsorted_positions :
  sorted_by_lexeme unsorted_ab ∧ uint16_positions unsorted_ab ∧
  ¬ (EvalTSQuery
       (mkQuery (mk_node followedby 1 no_term (exact_leaf "a") (exact_leaf "b")))
       unsorted_ab = Returns true None
     ↔ ∃ p, occurs unsorted_ab "a" p ∧ occurs unsorted_ab "b" (p + 1)).
Proof.
  split; [repeat constructor|].
  split; [apply uint16_positions_Forall; repeat constructor; done|].
  intros [_ Hfalse].
  assert (EvalTSQuery
            (mkQuery (mk_node followedby 1 no_term (exact_leaf "a") (exact_leaf "b")))
            unsorted_ab = Returns false None) as Heval by reflexivity.
  rewrite Heval in Hfalse. enough (Returns false None = Returns true None) by done.
  apply Hfalse. exists 1. split.
  - exists (mkTerm "a" (at_positions [5; 1])).
    split; [apply elem_of_cons; by left|]. split; [done|].
    apply elem_of_cons; right. apply elem_of_cons; by left.
  - exists (mkTerm "b" (at_positions [2])).
    split; [apply elem_of_cons; right; apply elem_of_cons; by left|].
    split; [done|]. apply elem_of_cons; by left.
Qed.

(** ** The normalizer *)

Lemma uniq_from_snoc (a y : tsPosition) (l : list tsPosition) :
  uniq_from a (l ++ [y]) =
    if position y =? position (default a (last (uniq_from a l)))
    then uniq_from a l else uniq_from a l ++ [y].
Proof.
  revert a. induction l as [|b l IH]; intros a; simpl.
  - by destruct (position y =? position a).
  - destruct (position b =? position a); [apply IH|].
    rewrite IH, last_cons. destruct (last (uniq_from b l)); simpl;
      by destruct (position y =? _).
Qed.

Lemma uniq_snoc (y : tsPosition) (l : list tsPosition) :
  l ≠ [] →
  uniq (l ++ [y]) =
    if position y =? position (default y (last (uniq l)))
    then uniq l else uniq l ++ [y].
Proof.
  destruct l as [|a l]; [done|]. intros _. simpl.
  rewrite uniq_from_snoc, last_cons.
  destruct (last (uniq_from a l)); simpl; by destruct (position y =? _).
Qed.

Lemma uniq_body_inv (s : list tsPosition) (j : nat) (st : list tsPosition * nat) :
  (1 ≤ j < length s)%nat → uniq_inv s j st → uniq_inv s (S j) (uniq_body st j).
Proof.
  destruct st as [cur lastIdx]. unfold uniq_inv. cbn [fst snd].
  intros Hj (Hlen & Hlast & Htake & Hdrop).
  destruct (lookup_lt_is_Some_2 s j ltac:(lia)) as [pj Hpj].
  assert (cur !! j = Some pj) as Hcj.
  { rewrite <- (Nat.add_0_r j), <- lookup_drop, Hdrop, lookup_drop.
    by rewrite Nat.add_0_r. }
  destruct (lookup_lt_is_Some_2 cur lastIdx ltac:(lia)) as [pl Hpl].
  assert (last (uniq (take j s)) = Some pl) as Hkept.
  { rewrite <- Htake, last_lookup, length_take_le by lia.
    rewrite lookup_take_lt by (simpl; lia). done. }
  assert (take j s ≠ []) as Hne.
  { intros Hnil. apply (f_equal length) in Hnil.
    rewrite length_take_le in Hnil by lia. simpl in Hnil. lia. }
  rewrite (take_S_r s j pj Hpj), (uniq_snoc pj _ Hne), Hkept.
  change (default pj (Some pl)) with pl.
  assert (drop (S j) cur = drop (S j) s) as Hdrop'.
  { rewrite <- (Nat.add_1_r j), <- !drop_drop. by rewrite Hdrop. }
  unfold uniq_body. rewrite Hcj, Hpl.
  destruct (position pj =? position pl); cbn [negb fst snd].
  - repeat split; [done | lia | done | done].
  - rewrite Nat.add_1_r. repeat split.
    + by rewrite length_insert.
    + lia.
    + rewrite (take_S_r _ (S lastIdx) pj).
      * rewrite take_insert_ge by lia. by rewrite Htake.
      * apply list_lookup_insert_eq. lia.
    + by rewrite drop_insert_lt by lia.
Qed.

Lemma uniq_loop (s : list tsPosition) (n j : nat) (st : list tsPosition * nat) :
  (1 ≤ j)%nat → (j + n = length s)%nat → uniq_inv s j st →
  take (S (fold_left uniq_body (seq j n) st).2) (fold_left uniq_body (seq j n) st).1
    = uniq s.
Proof.
  revert j st. induction n as [|n IH]; intros j st Hj Hn Hinv.
  - simpl. destruct Hinv as (_ & _ & -> & _). by rewrite take_ge by lia.
  - cbn [seq fold_left]. apply IH; [lia | lia |].
    apply uniq_body_inv; [lia | done].
Qed.

Lemma insert_position_perm (p : tsPosition) (l : list tsPosition) :
  insert_position p l ≡ₚ p :: l.
Proof.
  induction l as [|q rest IH]; cbn [insert_position]; [done|].
  destruct (position p <=? position q); [done|].
  rewrite IH. apply Permutation_swap.
Qed.

Lemma sort_Slice_length (pos : list tsPosition) :
  length (sort_Slice pos) = length pos.
Proof.
  unfold sort_Slice. induction pos as [|p pos IH]; cbn [foldr]; [done|].
  rewrite insert_position_perm. cbn [length]. by rewrite IH.
Qed.

(** The normalizer returns the sorted slice with the first entry kept of
    every run of equal positions, cut at the cap. *)
Lemma sortAndUniqTSPositions_uniq (pos : list tsPosition) :
  sortAndUniqTSPositions pos = take maxTSVectorPositions (uniq (sort_Slice pos)).
Proof.
  unfold sortAndUniqTSPositions.
  destruct (Nat.leb_spec (length pos) 1) as [Hshort|Hlong].
  - destruct pos as [|a [|b pos]]; [done | done | simpl in Hshort; lia].
  - pose proof (sort_Slice_length pos) as Hlen.
    set (s := sort_Slice pos) in *.
    pose proof (uniq_loop s (length s - 1) 1 (s, 0%nat)) as Hloop.
    destruct (fold_left uniq_body (seq 1 (length s - 1)) (s, 0%nat))
      as [cur lastIdx].
    cbn [fst snd] in Hloop. rewrite Nat.add_1_r, Hloop.
    + destruct (Nat.ltb_spec maxTSVectorPositions (length (uniq s))); [done|].
      by rewrite take_ge.
    + lia.
    + lia.
    + unfold uniq_inv. cbn [fst snd]. repeat split; [lia|].
      destruct s; [simpl in *; lia | done].
Qed.

Global Instance position_le_trans : Transitive position_le.
Proof. unfold position_le. intros a b c. lia. Qed.

Global Instance position_le_total : Total position_le.
Proof. unfold position_le. intros a b. lia. Qed.

Global Instance position_lt_trans : Transitive position_lt.
Proof. unfold position_lt. intros a b c. lia. Qed.

Lemma insert_position_sorted (p : tsPosition) (l : list tsPosition) :
  StronglySorted position_le l → StronglySorted position_le (insert_position p l).
Proof.
  induction 1 as [|q rest Hs IH Hall]; cbn [insert_position].
  - repeat constructor.
  - destruct (Z.leb_spec (position p) (position q)) as [Hle|Hgt].
    + constructor; [by constructor|]. constructor; [done|].
      eapply Forall_impl; [exact Hall|]. unfold position_le. intros x Hx. lia.
    + constructor; [done|]. rewrite insert_position_perm.
      constructor; [unfold position_le; lia | done].
Qed.

Lemma sort_Slice_sorted (pos : list tsPosition) :
  StronglySorted position_le (sort_Slice pos).
Proof.
  unfold sort_Slice. induction pos as [|p pos IH]; cbn [foldr]; [constructor|].
  by apply insert_position_sorted.
Qed.

Lemma sort_Slice_perm (pos : list tsPosition) : sort_Slice pos ≡ₚ pos.
Proof.
  unfold sort_Slice. induction pos as [|p pos IH]; cbn [foldr]; [done|].
  by rewrite insert_position_perm, IH.
Qed.

Lemma uniq_from_elem_of (a x : tsPosition) (l : list tsPosition) :
  x ∈ uniq_from a l → x ∈ l.
Proof.
  revert a. induction l as [|b l IH]; intros a; simpl; [done|].
  destruct (position b =? position a).
  - intros H. apply elem_of_cons. right. by eapply IH.
  - intros [->|H]%elem_of_cons; apply elem_of_cons; [by left|].
    right. by eapply IH.
Qed.

Lemma uniq_elem_of (x : tsPosition) (l : list tsPosition) : x ∈ uniq l → x ∈ l.
Proof.
  destruct l as [|a l]; [done|]. simpl.
  intros [->|H]%elem_of_cons; apply elem_of_cons; [by left|].
  right. by eapply uniq_from_elem_of.
Qed.

(** No position is lost: what is dropped has the position of a kept entry. *)
Lemma uniq_from_positions (a : tsPosition) (l : list tsPosition) (p : Z) :
  p ∈ position <$> l → p = position a ∨ p ∈ position <$> uniq_from a l.
Proof.
  revert a. induction l as [|b l IH]; intros a; [by intros H%elem_of_nil|].
  cbn [uniq_from]. rewrite fmap_cons. intros [->|H]%elem_of_cons.
  - destruct (Z.eqb_spec (position b) (position a)) as [Heq|Hne]; [by left|].
    right. rewrite fmap_cons. apply elem_of_cons. by left.
  - destruct (Z.eqb_spec (position b) (position a)) as [Heq|Hne]; [by apply IH|].
    right. rewrite fmap_cons. apply elem_of_cons.
    destruct (IH b H) as [->|Hin]; [by left | by right].
Qed.

Lemma uniq_positions (l : list tsPosition) (p : Z) :
  p ∈ position <$> uniq l ↔ p ∈ position <$> l.
Proof.
  split.
  - intros (x & -> & Hx)%list_elem_of_fmap. apply list_elem_of_fmap_2.
    by apply uniq_elem_of.
  - destruct l as [|a l]; [done|]. cbn [uniq]. rewrite !fmap_cons.
    intros [->|H]%elem_of_cons; apply elem_of_cons; [by left|].
    destruct (uniq_from_positions a l p H); [by left | by right].
Qed.

Lemma uniq_from_sorted (a : tsPosition) (l : list tsPosition) :
  StronglySorted position_le (a :: l) →
  Forall (position_lt a) (uniq_from a l) ∧ StronglySorted position_lt (uniq_from a l).
Proof.
  revert a. induction l as [|b l IH]; intros a Hs; simpl.
  - split; constructor.
  - apply StronglySorted_cons in Hs as [Ha Hs].
    apply Forall_cons in Ha as [Hab Ha].
    destruct (Z.eqb_spec (position b) (position a)) as [Heq|Hne].
    + apply IH. apply StronglySorted_cons. split; [done|].
      by apply StronglySorted_cons in Hs as [_ Hs].
    + destruct (IH b Hs) as [Hb Hsb].
      assert (position_lt a b) as Hlt by (unfold position_lt, position_le in *; lia).
      split.
      * constructor; [done|]. eapply Forall_impl; [exact Hb|].
        intros c Hc. by transitivity b.
      * by constructor.
Qed.

(** What the normalizer keeps is strictly ascending. *)
Lemma uniq_sorted (l : list tsPosition) :
  StronglySorted position_le l → StronglySorted position_lt (uniq l).
Proof.
  destruct l as [|a l]; [constructor|]. intros Hs. simpl.
  destruct (uniq_from_sorted a l Hs). by constructor.
Qed.

Lemma uniq_from_strict (a : tsPosition) (l : list tsPosition) :
  Forall (position_lt a) l → StronglySorted position_lt l → uniq_from a l = l.
Proof.
  revert a. induction l as [|b l IH]; intros a Ha Hs; simpl; [done|].
  apply Forall_cons in Ha as [Hab Ha].
  apply StronglySorted_cons in Hs as [Hb Hs].
  destruct (Z.eqb_spec (position b) (position a)) as [Heq|Hne].
  - unfold position_lt in Hab. lia.
  - f_equal. by apply IH.
Qed.

Lemma uniq_strict (l : list tsPosition) :
  StronglySorted position_lt l → uniq l = l.
Proof.
  destruct l as [|a l]; [done|]. intros [Ha Hs]%StronglySorted_cons. simpl.
  f_equal. by apply uniq_from_strict.
Qed.

(** Ascending without duplicates is strictly ascending. *)
Lemma ascending_NoDup_strict (l : list tsPosition) :
  Sorted Z.le (position <$> l) → NoDup (position <$> l) →
  StronglySorted position_lt l.
Proof.
  intros Hs%Sorted_StronglySorted; [|apply _].
  induction l as [|a l IH]; [constructor|].
  rewrite fmap_cons in *.
  apply StronglySorted_cons in Hs as [Ha Hs].
  intros [Hnotin Hnodup]%NoDup_cons.
  constructor; [by apply IH|].
  rewrite Forall_forall in Ha. apply Forall_forall. intros b Hb.
  assert (position b ∈ position <$> l) as Hpb by (by apply list_elem_of_fmap_2).
  specialize (Ha _ Hpb). unfold position_lt.
  assert (position a ≠ position b) by congruence. lia.
Qed.

Lemma strict_le (l : list tsPosition) :
  StronglySorted position_lt l → StronglySorted position_le l.
Proof.
  induction 1 as [|a l Hs IH Ha]; constructor; [done|].
  eapply Forall_impl; [exact Ha|]. unfold position_lt, position_le. intros; lia.
Qed.

(** Sorting a strictly ascending slice leaves it as it is, whichever way
    entries with equal positions would be ordered. *)
Lemma sort_Slice_strict (l : list tsPosition) :
  StronglySorted position_lt l → sort_Slice l = l.
Proof.
  intros Hs.
  apply (StronglySorted_unique_strong position_le);
    [|apply sort_Slice_sorted | by apply strict_le | apply sort_Slice_perm].
  intros x1 x2 Hx1 Hx2 H12 H21. rewrite sort_Slice_perm in Hx1.
  apply list_elem_of_lookup_1 in Hx1 as [i Hi].
  apply list_elem_of_lookup_1 in Hx2 as [j Hj].
  unfold position_le in *.
  destruct (Nat.lt_total i j) as [Hij|[->|Hij]]; [|congruence|].
  - pose proof (StronglySorted_lookup _ _ _ _ _ _ Hs Hi Hj Hij) as Hlt.
    unfold position_lt in Hlt. lia.
  - pose proof (StronglySorted_lookup _ _ _ _ _ _ Hs Hj Hi Hij) as Hlt.
    unfold position_lt in Hlt. lia.
Qed.

(** C9: on a position list that is ascending, free of duplicate positions
    and within the cap, the normalizer returns its input. *)
Theorem normalizer_idempotent (pos : list tsPosition) :
  normal_form pos → sortAndUniqTSPositions pos = pos.
Proof.
  intros (Hsorted & Hnodup & Hlen).
  pose proof (ascending_NoDup_strict pos Hsorted Hnodup) as Hstrict.
  rewrite sortAndUniqTSPositions_uniq, (sort_Slice_strict pos Hstrict),
    (uniq_strict pos Hstrict).
  by apply take_ge.
Qed.

Lemma normalizer_idempotent_witness :
  normal_form (at_positions [1; 4; 9]) ∧
  sortAndUniqTSPositions (at_positions [1; 4; 9]) = at_positions [1; 4; 9].
Proof.
  assert (normal_form (at_positions [1; 4; 9])) as Hnormal.
  { split; [repeat constructor; done|]. split; [|unfold maxTSVectorPositions; simpl; lia].
    by apply (bool_decide_unpack _). }
  split; [exact Hnormal|].
  exact (normalizer_idempotent (at_positions [1; 4; 9]) Hnormal).
Defined.

(** ** What the merge emits *)

Lemma to_uint16_int_add (p offset : Z) :
  to_uint16 (int_add p offset) = (p + offset) mod 2 ^ 16.
Proof. unfold int_add. by rewrite to_uint16_int_wrap. Qed.

Lemma to_uint16_add_int_wrap (a b : Z) :
  (a + int_wrap b) mod 2 ^ 16 = (a + b) mod 2 ^ 16.
Proof.
  rewrite <- (Zplus_mod_idemp_r (int_wrap b)).
  fold (to_uint16 (int_wrap b)). rewrite to_uint16_int_wrap.
  unfold to_uint16. by rewrite Zplus_mod_idemp_r.
Qed.

Lemma Forall_emitted (P : tsPosition → Prop) (mode flag : emitMode) (p : Z) :
  (0 < Z.land mode flag → P (mkPos (to_uint16 p) 0)) →
  Forall P (emitted mode flag p).
Proof.
  intros H. unfold emitted. destruct (Z.ltb_spec 0 (Z.land mode flag)); auto.
Qed.

Lemma flag_set (mode flag : emitMode) :
  0 <= flag → Z.land mode flag ≠ 0 → 0 < Z.land mode flag.
Proof.
  intros Hflag Hne.
  assert (0 <= Z.land mode flag) by (apply Z.land_nonneg; auto). lia.
Qed.

Lemma emission_weaken lo ro mode ls ls' rs rs' q :
  ls ⊆ ls' → rs ⊆ rs' →
  emission lo ro mode ls rs q → emission lo ro mode ls' rs' q.
Proof.
  intros Hls Hrs [[Hm H]|[Hm H]]; [left|right]; (split; [done|]);
    apply Exists_exists in H as (z & Hz & Hq); apply Exists_exists;
    exists z; auto.
Qed.

Lemma merge_emissions (lo ro : Z) (mode : emitMode) (ls rs : list tsPosition) :
  Forall (emission lo ro mode ls rs) (merge lo ro mode ls rs).
Proof.
  revert rs. induction ls as [|x ls IHl]; intros rs.
  - induction rs as [|y rs IHr]; [by rewrite merge_nil_nil|].
    rewrite merge_nil_cons.
    destruct (Z.eqb_spec (Z.land mode emitRightUnmatched) 0) as [|Hmode]; [done|].
    apply flag_set in Hmode; [|done].
    assert (Forall (emission lo ro mode [] (y :: rs)) (merge lo ro mode [] rs)) as Hrest.
    { eapply Forall_impl; [exact IHr|]. intros q.
      apply emission_weaken; [done | set_solver]. }
    destruct (MaxInt64 =? int_add (position y) ro);
      (apply Forall_app; split; [|done]); apply Forall_emitted; intros Hflag;
      left; (split; [auto|]); apply Exists_cons_hd;
      unfold stores; by rewrite to_uint16_int_add.
  - induction rs as [|y rs IHr].
    + rewrite merge_cons_nil.
      destruct (Z.eqb_spec (Z.land mode emitLeftUnmatched) 0) as [|Hmode]; [done|].
      apply flag_set in Hmode; [|done].
      assert (Forall (emission lo ro mode (x :: ls) []) (merge lo ro mode ls [])) as Hrest.
      { eapply Forall_impl; [exact (IHl [])|]. intros q.
        apply emission_weaken; [set_solver | done]. }
      pose proof (int_wrap_range (position x + lo)) as Hrange.
      fold (int_add (position x) lo) in Hrange.
      destruct (Z.ltb_spec (int_add (position x) lo) MaxInt64) as [Hlt|Hge];
        (apply Forall_app; split; [|done]); apply Forall_emitted; intros Hflag;
        right; (split; [done|]); apply Exists_cons_hd; unfold stores.
      * by rewrite to_uint16_int_add.
      * assert (MaxInt64 = int_add (position x) lo) as -> by lia.
        by rewrite to_uint16_int_add.
    + rewrite merge_cons_cons.
      destruct (int_add (position x) lo <? int_add (position y) ro);
        [|destruct (int_add (position x) lo =? int_add (position y) ro)];
        apply Forall_app; split.
      * apply Forall_emitted. intros Hflag. right. split; [done|].
        apply Exists_cons_hd. unfold stores. by rewrite to_uint16_int_add.
      * eapply Forall_impl; [exact (IHl (y :: rs))|]. intros q.
        apply emission_weaken; [set_solver | done].
      * apply Forall_emitted. intros Hflag. left. split; [auto|].
        apply Exists_cons_hd. unfold stores. by rewrite to_uint16_int_add.
      * eapply Forall_impl; [exact (IHl rs)|]. intros q.
        apply emission_weaken; set_solver.
      * apply Forall_emitted. intros Hflag. left. split; [auto|].
        apply Exists_cons_hd. unfold stores. by rewrite to_uint16_int_add.
      * eapply Forall_impl; [exact IHr|]. intros q.
        apply emission_weaken; [done | set_solver].
Qed.

(** C10: every entry of a merge result stores an adjusted position reduced
    modulo 2^16: that of a right entry for a match or an unmatched right
    entry, that of a left entry for an unmatched left entry.  Under
    [followedby] with only the right operand inverted the entries are the
    left positions plus the distance plus the right width, modulo 2^16; an
    adjusted position of 2^16 wraps to 0. *)
Theorem emitted_positions_wrap (v : TSVector) (distance : Z) (t : tsTerm)
    (l r : tsNode) (lp rp ls rs : tsPositionSet) (lo ro : Z) (mode : emitMode) :
  evalWithinFollowedBy v l = Returns lp None →
  evalWithinFollowedBy v r = Returns rp None →
  invert lp = false → invert rp = true →
  Forall (emission lo ro mode (positions ls) (positions rs))
    (positions (evalFollowedBy ls rs lo ro mode)) ∧
  (∃ ps,
     evalWithinFollowedBy v (mk_node followedby distance t l r) = Returns ps None ∧
     Forall (λ q, Exists (λ x, stores q (position x) (distance + width rp))
                    (positions lp))
       (positions ps)) ∧
  evalFollowedBy (mkSet [mkPos 65535 0] 0 false) empty_set 1 0 left_only
    = mkSet [mkPos 0 0] 0 false.
Proof.
  intros Hl Hr Hil Hir. split; [|split].
  - rewrite evalFollowedBy_merge. apply merge_emissions.
  - rewrite (evalWithinFollowedBy_followedby _ _ _ _ _ _ _ Hl Hr). cbv zeta.
    unfold and_switch. rewrite Hil, Hir. cbn [andb].
    eexists. split; [reflexivity|]. cbn [positions].
    rewrite evalFollowedBy_merge. cbn [positions].
    eapply Forall_impl; [apply merge_emissions|].
    intros q [[[Hm|Hm] _]|[_ Hq]]; [done | done |].
    eapply Exists_impl; [exact Hq|]. intros x. unfold stores, int_add.
    by rewrite to_uint16_add_int_wrap.
  - reflexivity.
Qed.

Lemma emitted_positions_wrap_witness :
  evalWithinFollowedBy cat_dog (exact_leaf "cat")
    = Returns (mkSet (at_positions [1]) 0 false) None ∧
  evalWithinFollowedBy cat_dog (mk_node not_ 0 no_term (exact_leaf "cow") nil_node)
    = Returns (mkSet [] 0 true) None ∧
  ∃ ps,
    evalWithinFollowedBy cat_dog
      (mk_node followedby 3 no_term (exact_leaf "cat")
         (mk_node not_ 0 no_term (exact_leaf "cow") nil_node)) = Returns ps None ∧
    Forall (λ q, Exists (λ x, stores q (position x) (3 + 0)) (at_positions [1]))
      (positions ps).
Proof.
  split; [reflexivity|]. split; [reflexivity|].
  exact (proj1 (proj2 (emitted_positions_wrap cat_dog 3 no_term
    (exact_leaf "cat") (mk_node not_ 0 no_term (exact_leaf "cow") nil_node)
    (mkSet (at_positions [1]) 0 false) (mkSet [] 0 true)
    empty_set empty_set 0 0 union_all
    eq_refl eq_refl eq_refl eq_refl))).
Defined.

(** ** The cap on position lists *)

Lemma length_emitted (mode flag : emitMode) (p : Z) :
  (length (emitted mode flag p) ≤ 1)%nat.
Proof. unfold emitted. destruct (0 <? Z.land mode flag); simpl; lia. Qed.

(** A merge emits at most one entry for every entry it passes. *)
Lemma length_merge (lo ro : Z) (mode : emitMode) (ls rs : list tsPosition) :
  (length (merge lo ro mode ls rs) ≤ length ls + length rs)%nat.
Proof.
  revert rs. induction ls as [|x ls IHl]; intros rs.
  - induction rs as [|y rs IHr]; [done|].
    rewrite merge_nil_cons. cbn [length] in *.
    destruct (Z.land mode emitRightUnmatched =? 0); [simpl; lia|].
    destruct (MaxInt64 =? _); rewrite length_app;
      match goal with |- context [emitted ?m ?f ?p] =>
        pose proof (length_emitted m f p) end; lia.
  - induction rs as [|y rs IHr].
    + rewrite merge_cons_nil. specialize (IHl []). cbn [length] in *.
      destruct (Z.land mode emitLeftUnmatched =? 0); [simpl; lia|].
      destruct (_ <? MaxInt64); rewrite length_app;
        match goal with |- context [emitted ?m ?f ?p] =>
          pose proof (length_emitted m f p) end; lia.
    + rewrite merge_cons_cons.
      pose proof (IHl (y :: rs)) as IH1. pose proof (IHl rs) as IH2.
      cbn [length] in *.
      destruct (_ <? _); [|destruct (_ =? _)]; rewrite length_app;
        match goal with |- context [emitted ?m ?f ?p] =>
          pose proof (length_emitted m f p) end; lia.
Qed.

Lemma length_sortAndUniqTSPositions (pos : list tsPosition) :
  (length (sortAndUniqTSPositions pos) ≤ maxTSVectorPositions)%nat.
Proof. rewrite sortAndUniqTSPositions_uniq, length_take. lia. Qed.

Lemma length_evalLeafWithin (v : TSVector) (term : tsTerm) :
  capped_vector v →
  (length (positions (evalLeafWithin v term)) ≤ maxTSVectorPositions)%nat.
Proof.
  intros Hv. unfold evalLeafWithin.
  destruct (v !! Search _ _) as [t|] eqn:Ht; [|simpl; lia].
  destruct (prefixMatch term); [apply length_sortAndUniqTSPositions|].
  destruct (negb _); [simpl; lia|]. cbn [positions].
  apply Hv. by eapply list_elem_of_lookup_2.
Qed.

(** C5, amended: the normalizer returns the sorted list without duplicate
    positions (strictly ascending, with the positions of its input), cut to
    its first [maxTSVectorPositions] entries, so at most that many; a leaf
    lookup on a vector whose position lists are within the cap returns at
    most that many positions; a merge is not cut and returns at most as many
    entries as its two operands have together. *)
Theorem position_set_bounds (v : TSVector) (term : tsTerm) (pos : list tsPosition)
    (lp rp : tsPositionSet) (lo ro : Z) (mode : emitMode) :
  capped_vector v →
  sortAndUniqTSPositions pos = take maxTSVectorPositions (uniq (sort_Slice pos)) ∧
  StronglySorted position_lt (uniq (sort_Slice pos)) ∧
  (∀ p, p ∈ position <$> uniq (sort_Slice pos) ↔ p ∈ position <$> pos) ∧
  (length (sortAndUniqTSPositions pos) ≤ maxTSVectorPositions)%nat ∧
  (length (positions (evalLeafWithin v term)) ≤ maxTSVectorPositions)%nat ∧
  (length (positions (evalFollowedBy lp rp lo ro mode))
     ≤ length (positions lp) + length (positions rp))%nat.
Proof.
  intros Hv. split; [apply sortAndUniqTSPositions_uniq|].
  split; [apply uniq_sorted, sort_Slice_sorted|].
  split; [intros p; by rewrite uniq_positions, sort_Slice_perm|].
  split; [apply length_sortAndUniqTSPositions|].
  split; [by apply length_evalLeafWithin|].
  rewrite evalFollowedBy_merge. apply length_merge.
Qed.

Lemma capped_vector_Forall (v : TSVector) :
  Forall (λ t, (length (term_positions t) ≤ maxTSVectorPositions)%nat) v →
  capped_vector v.
Proof. intros H t Ht. rewrite Forall_forall in H. by apply H. Qed.

Lemma position_set_bounds_witness :
  capped_vector cat_dog ∧
  (length (positions (evalLeafWithin cat_dog (mkTerm "c" [mkPos 0 weightStar])))
     ≤ maxTSVectorPositions)%nat.
Proof.
  assert (capped_vector cat_dog) as Hcap.
  { apply capped_vector_Forall. repeat constructor; simpl; lia. }
  split; [exact Hcap|].
  exact (proj1 (proj2 (proj2 (proj2 (proj2 (position_set_bounds cat_dog
    (mkTerm "c" [mkPos 0 weightStar]) [] empty_set empty_set 0 0 union_all Hcap)))))).
Defined.

Lemma well_formed_Forall (v : TSVector) :
  sorted_by_lexeme v →
  Forall (λ t, Forall (λ p, is_uint16 (position p)) (term_positions t) ∧
               StronglySorted position_lt (term_positions t) ∧
               (length (term_positions t) ≤ maxTSVectorPositions)%nat) v →
  well_formed v.
Proof.
  intros Hsorted H. rewrite Forall_forall in H.
  split; [done|]. repeat split; intros t Ht; by apply H.
Qed.

Lemma two_full_terms_well_formed : well_formed two_full_terms.
Proof.
  apply well_formed_Forall; [repeat constructor|].
  apply Forall_cons; split; [|apply Forall_cons; split; [|by apply Forall_nil]];
    (split; [|split]); try (apply (bool_decide_unpack _)); vm_compute; reflexivity.
Qed.

(** C5 as stated fails: the vector with "a" at 1..256 and "b" at 257..512 is
    well formed, and [(a | b) <-> !c] evaluates to a position set of 512
    entries. *)
Lemma merge_exceeds_cap :
  well_formed two_full_terms ∧
  ∃ ps,
    evalWithinFollowedBy two_full_terms either_then_not = Returns ps None ∧
    ¬ (length (positions ps) ≤ maxTSVectorPositions)%nat.
Proof.
  split; [exact two_full_terms_well_formed|].
  exists (match evalWithinFollowedBy two_full_terms either_then_not with
          | Returns ps _ => ps
          | Panics => empty_set
          end).
  split; [vm_compute; reflexivity|].
  assert (length (positions
            match evalWithinFollowedBy two_full_terms either_then_not with
            | Returns ps _ => ps
            | Panics => empty_set
            end) = 512%nat) as -> by (vm_compute; reflexivity).
  unfold maxTSVectorPositions. lia.
Qed.

(** ** Ascending order of the results *)

Lemma far_apart_vector_well_formed : well_formed far_apart_vector.
Proof.
  apply well_formed_Forall; [repeat constructor|].
  apply Forall_cons; split; [|by apply Forall_nil].
  split; [|split]; try (apply (bool_decide_unpack _)); vm_compute; reflexivity.
Qed.

Lemma last_position_vector_well_formed : well_formed last_position_vector.
Proof.
  apply well_formed_Forall; [repeat constructor|].
  apply Forall_cons; split; [|by apply Forall_nil].
  split; [|split]; try (apply (bool_decide_unpack _)); vm_compute; reflexivity.
Qed.

Lemma not_ascending_2 (a b : Z) : b < a → ¬ Sorted Z.le [a; b].
Proof.
  intros Hlt Hs. apply Sorted_inv in Hs as [_ Hhd].
  apply HdRel_inv in Hhd. lia.
Qed.

(** C4 fails on the code: the vector [{"a": [1, 16383]}] is well formed and
    the position-set evaluator returns for
    [a <-> !(b <16384> (c <16384> (d <16384> e)))] the positions
    [49154; 0], which are not in ascending order: the left offset is
    1 + 3 * 16384 and 16383 + 49153 = 2^16 is stored as 0.  The same happens
    for [a <-> !b] on [{"a": [1, 65535]}], with the result [2; 0]. *)
Theorem wrapped_positions_not_ascending :
  (well_formed far_apart_vector ∧
   ∃ ps,
     evalWithinFollowedBy far_apart_vector far_apart_query = Returns ps None ∧
     position <$> positions ps = [49154; 0] ∧
     ¬ Sorted Z.le (position <$> positions ps)) ∧
  (well_formed last_position_vector ∧
   ∃ ps,
     evalWithinFollowedBy last_position_vector last_position_query = Returns ps None ∧
     position <$> positions ps = [2; 0] ∧
     ¬ Sorted Z.le (position <$> positions ps)).
Proof.
  split.
  - split; [exact far_apart_vector_well_formed|].
    exists (mkSet [mkPos 49154 0; mkPos 0 0] 49153 false).
    split; [vm_compute; reflexivity|]. split; [done|]. by apply not_ascending_2.
  - split; [exact last_position_vector_well_formed|].
    exists (mkSet [mkPos 2 0; mkPos 0 0] 1 false).
    split; [vm_compute; reflexivity|]. split; [done|]. by apply not_ascending_2.
Qed.

(** *** Merges that do not wrap

    As long as every adjusted position stays below 2^16 the merge stores the
    adjusted positions themselves, and its result is strictly ascending. *)

Section no_wrap.
Context (lo ro : Z) (mode : emitMode) (top : Z).
Hypothesis top_uint16 : top < 2 ^ 16.

Local Abbreviation within m offset :=
  (Forall (λ x : tsPosition, m < position x + offset <= top)).

Lemma int_add_within m offset x :
  -1 <= m → m < position x + offset <= top →
  int_add (position x) offset = position x + offset ∧
  to_uint16 (position x + offset) = position x + offset ∧
  position x + offset < MaxInt64.
Proof.
  intros Hm Hx. unfold int_add, to_uint16, MaxInt64.
  rewrite int_wrap_small by (unfold MaxInt64; lia).
  rewrite Z.mod_small by lia. lia.
Qed.

Lemma Forall_emitted_cons (P : tsPosition → Prop) mode' flag p rest :
  P (mkPos (to_uint16 p) 0) → Forall P rest → Forall P (emitted mode' flag p ++ rest).
Proof.
  intros Hp Hrest. apply Forall_app. split; [|done]. by apply Forall_emitted.
Qed.

Lemma sorted_emitted_cons mode' flag p rest :
  Forall (λ q, to_uint16 p < position q) rest →
  StronglySorted position_lt rest →
  StronglySorted position_lt (emitted mode' flag p ++ rest).
Proof.
  intros Hp Hrest. unfold emitted. destruct (0 <? Z.land mode' flag); [|done].
  by constructor.
Qed.

Lemma within_weaken m m' offset ps :
  m' <= m → within m offset ps → within m' offset ps.
Proof.
  intros Hm H. eapply Forall_impl; [exact H|]. intros x. cbn. lia.
Qed.

Lemma within_tail m offset x ps :
  StronglySorted position_lt (x :: ps) → within m offset (x :: ps) →
  within (position x + offset) offset ps.
Proof.
  intros [Hx _]%StronglySorted_cons [_ Hps]%Forall_cons.
  rewrite Forall_forall in Hx. rewrite Forall_forall in Hps.
  apply Forall_forall. intros z Hz.
  specialize (Hx z Hz). specialize (Hps z Hz). unfold position_lt in Hx. lia.
Qed.

Lemma merge_no_wrap (ls rs : list tsPosition) (m : Z) :
  -1 <= m →
  StronglySorted position_lt ls → StronglySorted position_lt rs →
  within m lo ls → within m ro rs →
  Forall (λ q, m < position q <= top) (merge lo ro mode ls rs) ∧
  StronglySorted position_lt (merge lo ro mode ls rs).
Proof.
  intros Hm Hls. revert rs m Hm.
  induction ls as [|x ls IHl]; intros rs m Hm Hrs Hl Hr.
  - (* only right entries are left *)
    clear Hl Hls. revert m Hm Hr.
    induction rs as [|y rs IHr]; intros m Hm Hr; [rewrite merge_nil_nil; split; constructor|].
    rewrite merge_nil_cons. destruct (Z.land mode emitRightUnmatched =? 0); [split; constructor|].
    pose proof (within_tail _ _ _ _ Hrs Hr) as Hr'.
    apply Forall_cons in Hr as [Hy _].
    destruct (int_add_within m ro y Hm Hy) as (Hadd & Hu & Hmax).
    apply StronglySorted_cons in Hrs as [_ Hrs].
    destruct (IHr Hrs (position y + ro) ltac:(lia) Hr') as [Hall Hsorted].
    rewrite Hadd. destruct (Z.eqb_spec MaxInt64 (position y + ro)); [lia|].
    split.
    + apply Forall_emitted_cons; [cbn; lia|].
      eapply Forall_impl; [exact Hall|]. intros q. cbn. lia.
    + apply sorted_emitted_cons; [|done].
      eapply Forall_impl; [exact Hall|]. intros q. cbn. lia.
  - pose proof (within_tail _ _ _ _ Hls Hl) as Hl'.
    pose proof Hl as Hl0. apply Forall_cons in Hl0 as [Hx _].
    destruct (int_add_within m lo x Hm Hx) as (Haddx & Hux & Hmaxx).
    pose proof Hls as Hls0. apply StronglySorted_cons in Hls0 as [_ Hls'].
    specialize (IHl Hls'). revert m Hm Hl Hr Hl' Hx.
    induction rs as [|y rs IHr]; intros m Hm Hl Hr Hl' Hx.
    + (* only left entries are left *)
      rewrite merge_cons_nil.
      destruct (Z.land mode emitLeftUnmatched =? 0); [split; constructor|].
      rewrite Haddx. destruct (Z.ltb_spec (position x + lo) MaxInt64); [|lia].
      destruct (IHl [] (position x + lo) ltac:(lia) Hrs Hl' ltac:(done))
        as [Hall Hsorted].
      split.
      * apply Forall_emitted_cons; [cbn; lia|].
        eapply Forall_impl; [exact Hall|]. intros q. cbn. lia.
      * apply sorted_emitted_cons; [|done].
        eapply Forall_impl; [exact Hall|]. intros q. cbn. lia.
    + rewrite merge_cons_cons.
      pose proof (within_tail _ _ _ _ Hrs Hr) as Hr'.
      pose proof Hr as Hr0. apply Forall_cons in Hr0 as [Hy _].
      destruct (int_add_within m ro y Hm Hy) as (Haddy & Huy & Hmaxy).
      pose proof Hrs as Hrs0. apply StronglySorted_cons in Hrs0 as [_ Hrs'].
      rewrite Haddx, Haddy.
      destruct (Z.ltb_spec (position x + lo) (position y + ro)) as [Hlt|Hge].
      * destruct (IHl (y :: rs) (position x + lo) ltac:(lia) Hrs Hl') as [Hall Hsorted].
        { apply Forall_cons. split; [lia|].
          eapply within_weaken; [|exact Hr']. lia. }
        split.
        -- apply Forall_emitted_cons; [cbn; lia|].
           eapply Forall_impl; [exact Hall|]. intros q. cbn. lia.
        -- apply sorted_emitted_cons; [|done].
           eapply Forall_impl; [exact Hall|]. intros q. cbn. lia.
      * destruct (Z.eqb_spec (position x + lo) (position y + ro)) as [Heq|Hne].
        -- destruct (IHl rs (position y + ro) ltac:(lia) Hrs') as [Hall Hsorted].
           { by rewrite <- Heq. }
           { done. }
           split.
           ++ apply Forall_emitted_cons; [cbn; lia|].
              eapply Forall_impl; [exact Hall|]. intros q. cbn. lia.
           ++ apply sorted_emitted_cons; [|done].
              eapply Forall_impl; [exact Hall|]. intros q. cbn. lia.
        -- destruct (IHr Hrs' (position y + ro) ltac:(lia)) as [Hall Hsorted].
           { apply Forall_cons. split; [lia|].
             eapply within_weaken; [|exact Hl']. lia. }
           { done. }
           { eapply within_weaken; [|exact Hl']. lia. }
           { lia. }
           split.
           ++ apply Forall_emitted_cons; [cbn; lia|].
              eapply Forall_impl; [exact Hall|]. intros q. cbn. lia.
           ++ apply sorted_emitted_cons; [|done].
              eapply Forall_impl; [exact Hall|]. intros q. cbn. lia.
Qed.
End no_wrap.

(** *** Leaves *)

Lemma prefix_scan_elem_of (target : string) (rest : list tsTerm)
    (acc : list tsPosition) (p : tsPosition) :
  p ∈ prefix_scan target rest acc →
  p ∈ acc ∨ ∃ t, t ∈ rest ∧ p ∈ term_positions t.
Proof.
  revert acc. induction rest as [|t rest IH]; intros acc; simpl; [by left|].
  destruct (negb _); [by left|].
  intros [[Hacc|Ht]%elem_of_app|(t' & Ht' & Hp)]%IH.
  - by left.
  - right. exists t. split; [by left | done].
  - right. exists t'. split; [by right | done].
Qed.

Lemma StronglySorted_take {A} (R : relation A) (n : nat) (xs : list A) :
  StronglySorted R xs → StronglySorted R (take n xs).
Proof.
  intros Hs. rewrite <- (take_drop n xs) in Hs.
  by apply StronglySorted_app in Hs as (_ & Hs & _).
Qed.

Lemma sortAndUniqTSPositions_elem_of (pos : list tsPosition) (p : tsPosition) :
  p ∈ sortAndUniqTSPositions pos → p ∈ pos.
Proof.
  rewrite sortAndUniqTSPositions_uniq.
  intros Hp%subseteq_take%uniq_elem_of. by rewrite sort_Slice_perm in Hp.
Qed.

Lemma sortAndUniqTSPositions_strict (pos : list tsPosition) :
  StronglySorted position_lt (sortAndUniqTSPositions pos).
Proof.
  rewrite sortAndUniqTSPositions_uniq.
  apply StronglySorted_take, uniq_sorted, sort_Slice_sorted.
Qed.

Lemma evalLeafWithin_no_wrap (v : TSVector) (term : tsTerm) (bound : Z) :
  strict_positions v → positions_upto bound v →
  Forall (λ q, 0 <= position q <= bound) (positions (evalLeafWithin v term)) ∧
  StronglySorted position_lt (positions (evalLeafWithin v term)).
Proof.
  intros Hstrict Hupto. unfold evalLeafWithin.
  destruct (v !! Search _ _) as [t|] eqn:Ht; [|split; constructor].
  destruct (prefixMatch term); cbn [positions].
  - split; [|apply sortAndUniqTSPositions_strict].
    apply Forall_forall. intros p Hp%sortAndUniqTSPositions_elem_of.
    apply prefix_scan_elem_of in Hp as [Hp|(t' & Ht' & Hp)];
      [by apply elem_of_nil in Hp|].
    apply subseteq_drop in Ht'.
    specialize (Hupto t' Ht'). rewrite Forall_forall in Hupto. by apply Hupto.
  - destruct (negb _); [split; constructor|]. cbn [positions].
    apply list_elem_of_lookup_2 in Ht. auto.
Qed.

(** *** Whole queries *)

Lemma span_nonneg (node : tsNode) : nonneg_distances node → 0 <= span node.
Proof.
  induction node as [|op distance term l IHl r IHr]; simpl; [done|].
  destruct op; simpl; intros H; try lia.
  - destruct H as [Hl Hr]. specialize (IHl Hl). specialize (IHr Hr). lia.
  - destruct H as [Hl Hr]. specialize (IHl Hl). specialize (IHr Hr). lia.
  - by apply IHl.
  - destruct H as (Hd & Hl & Hr). specialize (IHl Hl). specialize (IHr Hr). lia.
Qed.

Lemma try_set_inv (call : outcome tsPositionSet)
    (k : tsPositionSet → outcome tsPositionSet) (ps : tsPositionSet) :
  try_set call k = Returns ps None →
  ∃ x, call = Returns x None ∧ k x = Returns ps None.
Proof.
  destruct call as [x [err|]|]; simpl; [done | | done]. intros H. by exists x.
Qed.

Section whole_query.
Context (v : TSVector) (bound : Z).
Hypothesis v_strict : strict_positions v.
Hypothesis v_upto : positions_upto bound v.
Hypothesis bound_nonneg : 0 <= bound.

(** A merge whose operands do not wrap, with offsets that keep every
    adjusted position within [bound + w]. *)
Lemma evalFollowedBy_no_wrap (lp rp : tsPositionSet) (lo ro w : Z) (mode : emitMode) :
  bound + w < 2 ^ 16 →
  0 <= lo → 0 <= ro → width lp + lo <= w → width rp + ro <= w →
  Forall (λ q, 0 <= position q <= bound + width lp) (positions lp) →
  Forall (λ q, 0 <= position q <= bound + width rp) (positions rp) →
  StronglySorted position_lt (positions lp) →
  StronglySorted position_lt (positions rp) →
  Forall (λ q, 0 <= position q <= bound + w)
    (positions (evalFollowedBy lp rp lo ro mode)) ∧
  StronglySorted position_lt (positions (evalFollowedBy lp rp lo ro mode)).
Proof.
  intros Hw Hlo Hro Hwl Hwr Hl Hr Hsl Hsr.
  rewrite evalFollowedBy_merge. cbn [positions].
  destruct (merge_no_wrap lo ro mode (bound + w) Hw (positions lp) (positions rp) (-1))
    as [Hall Hsorted]; [lia | done | done | | | ].
  - eapply Forall_impl; [exact Hl|]. intros q. cbn. lia.
  - eapply Forall_impl; [exact Hr|]. intros q. cbn. lia.
  - split; [|done]. eapply Forall_impl; [exact Hall|]. intros q. cbn. lia.
Qed.

(** On a vector with strictly ascending position lists, a query whose span
    added to the largest position stays below 2^16 evaluates to strictly
    ascending position lists. *)
Lemma evalWithinFollowedBy_no_wrap (node : tsNode) (ps : tsPositionSet) :
  nonneg_distances node → bound + span node < 2 ^ 16 →
  evalWithinFollowedBy v node = Returns ps None →
  no_wrap_result bound node ps.
Proof.
  revert ps. induction node as [|op distance term l IHl r IHr]; intros ps Hd Hspan;
    [done|].
  destruct op; cbn [evalWithinFollowedBy nonneg_distances span] in *.
  - (* a leaf *)
    intros [= <-]. destruct (evalLeafWithin_shape v term) as [Hw _].
    destruct (evalLeafWithin_no_wrap v term bound v_strict v_upto) as [Hall Hs].
    unfold no_wrap_result. cbn [span]. rewrite Hw, Z.add_0_r. split; [lia|]. done.
  - (* and *)
    destruct Hd as [Hdl Hdr].
    pose proof (span_nonneg l Hdl). pose proof (span_nonneg r Hdr).
    intros (lp & Hl & (rp & Hr & Heval)%try_set_inv)%try_set_inv.
    destruct (IHl lp Hdl ltac:(lia) Hl) as (Hwl & Hal & Hsl).
    destruct (IHr rp Hdr ltac:(lia) Hr) as (Hwr & Har & Hsr).
    rewrite align_max in Heval. cbv zeta in Heval.
    destruct (and_switch lp rp) as [mode inv]. injection Heval as <-.
    rewrite finish_evalFollowedBy. unfold no_wrap_result. cbn [span width positions].
    split; [lia|]. unfold int_sub. rewrite !int_wrap_small by (unfold MaxInt64; lia).
    apply evalFollowedBy_no_wrap; (done || lia).
  - (* or *)
    destruct Hd as [Hdl Hdr].
    pose proof (span_nonneg l Hdl). pose proof (span_nonneg r Hdr).
    intros (lp & Hl & (rp & Hr & Heval)%try_set_inv)%try_set_inv.
    destruct (IHl lp Hdl ltac:(lia) Hl) as (Hwl & Hal & Hsl).
    destruct (IHr rp Hdr ltac:(lia) Hr) as (Hwr & Har & Hsr).
    rewrite align_max in Heval. cbv zeta in Heval.
    destruct (or_switch lp rp) as [mode inv]. injection Heval as <-.
    rewrite finish_evalFollowedBy. unfold no_wrap_result. cbn [span width positions].
    split; [lia|]. unfold int_sub. rewrite !int_wrap_small by (unfold MaxInt64; lia).
    apply evalFollowedBy_no_wrap; (done || lia).
  - (* not *)
    intros (lp & Hl & [= <-])%try_set_inv.
    destruct (IHl lp Hd Hspan Hl) as (Hwl & Hal & Hsl).
    unfold no_wrap_result. by cbn [span width positions].
  - (* followed by *)
    destruct Hd as (Hdist & Hdl & Hdr).
    pose proof (span_nonneg l Hdl). pose proof (span_nonneg r Hdr).
    intros (lp & Hl & (rp & Hr & Heval)%try_set_inv)%try_set_inv.
    destruct (IHl lp Hdl ltac:(lia) Hl) as (Hwl & Hal & Hsl).
    destruct (IHr rp Hdr ltac:(lia) Hr) as (Hwr & Har & Hsr).
    cbv zeta in Heval.
    destruct (and_switch lp rp) as [mode inv]. injection Heval as <-.
    rewrite finish_evalFollowedBy. unfold no_wrap_result. cbn [span width positions].
    assert (int_add distance (width rp) = distance + width rp) as ->
      by (apply int_wrap_small; unfold MaxInt64; lia).
    assert (int_add (distance + width rp) (width lp) = distance + width rp + width lp)
      as -> by (apply int_wrap_small; unfold MaxInt64; lia).
    split; [lia|].
    apply evalFollowedBy_no_wrap; (done || lia).
  - done.
Qed.
End whole_query.

(** On a well-formed vector, a query with non-negative distances whose span
    added to the largest position stays below 2^16 evaluates to strictly
    ascending, duplicate-free position lists. *)
Corollary ascending_without_wrap (v : TSVector) (bound : Z) (node : tsNode)
    (ps : tsPositionSet) :
  well_formed v → positions_upto bound v → 0 <= bound →
  nonneg_distances node → bound + span node < 2 ^ 16 →
  evalWithinFollowedBy v node = Returns ps None →
  StronglySorted position_lt (positions ps).
Proof.
  intros (_ & _ & Hstrict & _) Hupto Hbound Hd Hspan Heval.
  by destruct (evalWithinFollowedBy_no_wrap v bound Hstrict Hupto Hbound
                 node ps Hd Hspan Heval) as (_ & _ & Hsorted).
Qed.

(** * Further properties of the evaluators *)

(** ** Evaluation without failure *)

Lemma evalWithinFollowedBy_well_shaped (v : TSVector) (node : tsNode) :
  well_shaped node → ∃ ps, evalWithinFollowedBy v node = Returns ps None.
Proof.
  induction node as [|op n t l IHl r IHr]; [done|].
  destruct op; cbn [well_shaped]; try done.
  - intros _. by eexists.
  - intros [[lp Hl]%IHl [rp Hr]%IHr].
    rewrite (evalWithinFollowedBy_and _ _ _ _ _ _ _ Hl Hr).
    destruct (align lp rp) as [[lo ro] w], (and_switch lp rp) as [mode inv].
    by eexists.
  - intros [[lp Hl]%IHl [rp Hr]%IHr].
    rewrite (evalWithinFollowedBy_or _ _ _ _ _ _ _ Hl Hr).
    destruct (align lp rp) as [[lo ro] w], (or_switch lp rp) as [mode inv].
    by eexists.
  - intros [lp Hl]%IHl. cbn [evalWithinFollowedBy]. rewrite Hl. by eexists.
  - intros [[lp Hl]%IHl [rp Hr]%IHr].
    rewrite (evalWithinFollowedBy_followedby _ _ _ _ _ _ _ Hl Hr). cbv zeta.
    destruct (and_switch lp rp) as [mode inv]. by eexists.
Qed.

(** X1: on a tree in which every operand is there and every tag is known,
    both evaluators return, without error and without panic, whatever the
    vector is. *)
Theorem well_shaped_evaluates (v : TSVector) (node : tsNode) :
  well_shaped node →
  (∃ b, EvalTSQuery (mkQuery node) v = Returns b None) ∧
  (∃ ps, evalWithinFollowedBy v node = Returns ps None).
Proof.
  intros Hshape. split; [|by apply evalWithinFollowedBy_well_shaped].
  unfold EvalTSQuery. cbn [root].
  induction node as [|op n t l IHl r IHr]; [done|].
  destruct op; cbn [well_shaped] in Hshape; try done.
  - by eexists.
  - destruct Hshape as [[lv Hl]%IHl [rv Hr]%IHr]. cbn [evalNode]. rewrite Hl.
    destruct lv; cbn [not_nil orb negb]; by eexists.
  - destruct Hshape as [[lv Hl]%IHl [rv Hr]%IHr]. cbn [evalNode]. rewrite Hl.
    destruct lv; cbn [not_nil]; by eexists.
  - destruct (IHl Hshape) as [lv Hl]. cbn [evalNode]. rewrite Hl. by eexists.
  - destruct (evalWithinFollowedBy_well_shaped v (mk_node followedby n t l r) Hshape)
      as [ps Hps].
    rewrite (evalNode_followedby _ _ _ _ _ _ Hps). by eexists.
Qed.

Lemma well_shaped_evaluates_witness :
  well_shaped (mk_node followedby 1 no_term (exact_leaf "cat") (exact_leaf "dog")) ∧
  (∃ b, EvalTSQuery
          (mkQuery (mk_node followedby 1 no_term (exact_leaf "cat") (exact_leaf "dog")))
          cat_dog = Returns b None) ∧
  (∃ ps, evalWithinFollowedBy cat_dog
           (mk_node followedby 1 no_term (exact_leaf "cat") (exact_leaf "dog"))
         = Returns ps None).
Proof.
  assert (well_shaped (mk_node followedby 1 no_term (exact_leaf "cat") (exact_leaf "dog")))
    as Hshape by (simpl; auto).
  split; [exact Hshape|].
  exact (well_shaped_evaluates cat_dog _ Hshape).
Defined.

(** ** Errors *)

Lemma evalWithinFollowedBy_error (v : TSVector) (node : tsNode)
    (ps : tsPositionSet) (err : error) :
  evalWithinFollowedBy v node = Returns ps (Some err) →
  ps = empty_set ∧
  ∃ tag, err = AssertionFailed (other_op tag) ∧ tag ∈ unknown_tags node.
Proof.
  revert ps. induction node as [|op n t l IHl r IHr]; intros ps; [done|].
  destruct op; cbn [evalWithinFollowedBy unknown_tags]; try done.
  - destruct (evalWithinFollowedBy v l) as [lp [el|]|]; cbn [try_set]; [| |done].
    { intros [= <- ->]. destruct (IHl _ eq_refl) as (_ & tag & -> & Htag).
      split; [done|]. exists tag. split; [done|]. apply elem_of_app. by left. }
    destruct (evalWithinFollowedBy v r) as [rp [er|]|]; cbn [try_set]; [| |done].
    { intros [= <- ->]. destruct (IHr _ eq_refl) as (_ & tag & -> & Htag).
      split; [done|]. exists tag. split; [done|]. apply elem_of_app. by right. }
    by destruct (align lp rp) as [[lo ro] w], (and_switch lp rp) as [mode inv].
  - destruct (evalWithinFollowedBy v l) as [lp [el|]|]; cbn [try_set]; [| |done].
    { intros [= <- ->]. destruct (IHl _ eq_refl) as (_ & tag & -> & Htag).
      split; [done|]. exists tag. split; [done|]. apply elem_of_app. by left. }
    destruct (evalWithinFollowedBy v r) as [rp [er|]|]; cbn [try_set]; [| |done].
    { intros [= <- ->]. destruct (IHr _ eq_refl) as (_ & tag & -> & Htag).
      split; [done|]. exists tag. split; [done|]. apply elem_of_app. by right. }
    by destruct (align lp rp) as [[lo ro] w], (or_switch lp rp) as [mode inv].
  - destruct (evalWithinFollowedBy v l) as [lp [el|]|]; cbn [try_set]; [|done|done].
    intros [= <- ->]. destruct (IHl _ eq_refl) as (_ & tag & -> & Htag).
    split; [done|]. by exists tag.
  - destruct (evalWithinFollowedBy v l) as [lp [el|]|]; cbn [try_set]; [| |done].
    { intros [= <- ->]. destruct (IHl _ eq_refl) as (_ & tag & -> & Htag).
      split; [done|]. exists tag. split; [done|]. apply elem_of_app. by left. }
    destruct (evalWithinFollowedBy v r) as [rp [er|]|]; cbn [try_set]; [| |done].
    { intros [= <- ->]. destruct (IHr _ eq_refl) as (_ & tag & -> & Htag).
      split; [done|]. exists tag. split; [done|]. apply elem_of_app. by right. }
    cbv zeta. by destruct (and_switch lp rp) as [mode inv].
  - intros [= <- <-]. split; [done|]. exists tag. split; [done|].
    by apply list_elem_of_singleton.
Qed.

(** X2: the only error the boolean evaluator returns is the assertion
    failure for a tag it does not know, and that tag is a tag of the tree. *)
Theorem errors_name_unknown_tags (v : TSVector) (node : tsNode) (b : bool) (err : error) :
  EvalTSQuery (mkQuery node) v = Returns b (Some err) →
  ∃ tag, err = AssertionFailed (other_op tag) ∧ tag ∈ unknown_tags node.
Proof.
  unfold EvalTSQuery. cbn [root]. revert b.
  induction node as [|op n t l IHl r IHr]; intros b; [done|].
  destruct op; cbn [evalNode unknown_tags]; try done.
  - destruct (evalNode v l) as [lv [el|]|]; [| |done].
    + cbn [not_nil orb]. intros [= <- ->].
      destruct (IHl _ eq_refl) as (tag & -> & Htag).
      exists tag. split; [done|]. apply elem_of_app. by left.
    + destruct lv; cbn [not_nil orb negb]; [|done].
      intros (tag & -> & Htag)%IHr.
      exists tag. split; [done|]. apply elem_of_app. by right.
  - destruct (evalNode v l) as [lv [el|]|]; [| |done].
    + cbn [not_nil]. intros [= <- ->].
      destruct (IHl _ eq_refl) as (tag & -> & Htag).
      exists tag. split; [done|]. apply elem_of_app. by left.
    + destruct lv; cbn [not_nil]; [done|].
      intros (tag & -> & Htag)%IHr.
      exists tag. split; [done|]. apply elem_of_app. by right.
  - destruct (evalNode v l) as [lv [el|]|]; [|done|done].
    intros [= <- ->]. by apply (IHl lv).
  - destruct (evalWithinFollowedBy v (mk_node followedby n t l r))
      as [ps [e|]|] eqn:Heval; [|done|done].
    intros [= <- ->].
    by destruct (evalWithinFollowedBy_error _ _ _ _ Heval) as [_ Htag].
  - intros [= <- <-]. exists tag. split; [done|]. by apply list_elem_of_singleton.
Qed.

Lemma errors_name_unknown_tags_witness :
  EvalTSQuery (mkQuery (mk_node and_ 0 no_term (exact_leaf "cat") bad_node)) cat_dog
    = Returns false (Some (AssertionFailed (other_op 7))) ∧
  ∃ tag, AssertionFailed (other_op 7) = AssertionFailed (other_op tag) ∧
         tag ∈ unknown_tags (mk_node and_ 0 no_term (exact_leaf "cat") bad_node).
Proof.
  split; [reflexivity|].
  exact (errors_name_unknown_tags cat_dog
           (mk_node and_ 0 no_term (exact_leaf "cat") bad_node) false
           (AssertionFailed (other_op 7)) eq_refl).
Defined.

(** X3: when the position-set evaluator returns an error, the position set
    beside it is the zero value (no positions, width 0, not inverted), and
    the error is the assertion failure for an unknown tag of the tree. *)
Theorem no_partial_result_with_error (v : TSVector) (node : tsNode)
    (ps : tsPositionSet) (err : error) :
  evalWithinFollowedBy v node = Returns ps (Some err) →
  ps = mkSet [] 0 false ∧
  ∃ tag, err = AssertionFailed (other_op tag) ∧ tag ∈ unknown_tags node.
Proof. apply evalWithinFollowedBy_error. Qed.

Lemma no_partial_result_with_error_witness :
  evalWithinFollowedBy cat_dog
    (mk_node followedby 1 no_term (exact_leaf "cat") bad_node)
    = Returns empty_set (Some (AssertionFailed (other_op 7))) ∧
  empty_set = mkSet [] 0 false ∧
  ∃ tag, AssertionFailed (other_op 7) = AssertionFailed (other_op tag) ∧
         tag ∈ unknown_tags (mk_node followedby 1 no_term (exact_leaf "cat") bad_node).
Proof.
  split; [reflexivity|].
  exact (no_partial_result_with_error cat_dog
           (mk_node followedby 1 no_term (exact_leaf "cat") bad_node) empty_set
           (AssertionFailed (other_op 7)) eq_refl).
Defined.

(** ** The algebra of the boolean evaluator *)

(** X4: for operands that return without error, [and] is conjunction and
    [or] is disjunction, and the order of the operands does not matter. *)
Theorem and_or_truth_tables (v : TSVector) (n : Z) (t : tsTerm) (l r : tsNode)
    (lv rv : bool) :
  evalNode v l = Returns lv None →
  evalNode v r = Returns rv None →
  evalNode v (mk_node and_ n t l r) = Returns (lv && rv) None ∧
  evalNode v (mk_node or_ n t l r) = Returns (lv || rv) None ∧
  evalNode v (mk_node and_ n t r l) = evalNode v (mk_node and_ n t l r) ∧
  evalNode v (mk_node or_ n t r l) = evalNode v (mk_node or_ n t l r).
Proof.
  intros Hl Hr. cbn [evalNode]. rewrite Hl, Hr. by destruct lv, rv.
Qed.

Lemma and_or_truth_tables_witness :
  evalNode cat_dog (exact_leaf "cat") = Returns true None ∧
  evalNode cat_dog (exact_leaf "cow") = Returns false None ∧
  evalNode cat_dog (mk_node and_ 0 no_term (exact_leaf "cat") (exact_leaf "cow"))
    = Returns (true && false) None.
Proof.
  split; [reflexivity|]. split; [reflexivity|].
  exact (proj1 (and_or_truth_tables cat_dog 0 no_term (exact_leaf "cat")
                  (exact_leaf "cow") true false eq_refl eq_refl)).
Defined.

(** X5: De Morgan's laws hold for the boolean evaluator whenever the left
    operand returns without error, whatever the right operand does (value,
    error or panic); a double negation evaluates as its operand does. *)
Theorem de_morgan (v : TSVector) (n : Z) (t : tsTerm) (l r x : tsNode) (lv : bool) :
  evalNode v l = Returns lv None →
  evalNode v (mk_node not_ n t (mk_node and_ n t l r) nil_node) =
    evalNode v (mk_node or_ n t (mk_node not_ n t l nil_node)
                  (mk_node not_ n t r nil_node)) ∧
  evalNode v (mk_node not_ n t (mk_node or_ n t l r) nil_node) =
    evalNode v (mk_node and_ n t (mk_node not_ n t l nil_node)
                  (mk_node not_ n t r nil_node)) ∧
  evalNode v (mk_node not_ n t (mk_node not_ n t x nil_node) nil_node) = evalNode v x.
Proof.
  intros Hl. cbn [evalNode]. rewrite Hl. split; [|split].
  - by destruct lv.
  - by destruct lv.
  - destruct (evalNode v x) as [b err|]; [|done]. by rewrite negb_involutive.
Qed.

Lemma de_morgan_witness :
  evalNode cat_dog (exact_leaf "cat") = Returns true None ∧
  evalNode cat_dog
    (mk_node not_ 0 no_term (mk_node and_ 0 no_term (exact_leaf "cat") bad_node) nil_node) =
  evalNode cat_dog
    (mk_node or_ 0 no_term (mk_node not_ 0 no_term (exact_leaf "cat") nil_node)
       (mk_node not_ 0 no_term bad_node nil_node)).
Proof.
  split; [reflexivity|].
  exact (proj1 (de_morgan cat_dog 0 no_term (exact_leaf "cat") bad_node nil_node
                  true eq_refl)).
Defined.

(** ** Negation under the position-set evaluator *)

(** X6: under the position-set evaluator a double negation evaluates as its
    operand does: to the same position set, the same error or a panic. *)
Theorem double_negation_within (v : TSVector) (n n' : Z) (t t' : tsTerm)
    (x r r' : tsNode) :
  evalWithinFollowedBy v (mk_node not_ n t (mk_node not_ n' t' x r') r) =
    evalWithinFollowedBy v x.
Proof.
  cbn [evalWithinFollowedBy].
  destruct (evalWithinFollowedBy v x) as [ps [err|]|] eqn:Hx; cbn [try_set]; [| |done].
  - by destruct (evalWithinFollowedBy_error _ _ _ _ Hx) as [-> _].
  - destruct ps as [ps w inv]. cbn [positions width invert].
    by rewrite negb_involutive.
Qed.

(** ** Width and invert flag *)

Lemma align_ext (lp rp lp' rp' : tsPositionSet) :
  width lp' = width lp → width rp' = width rp → align lp' rp' = align lp rp.
Proof. unfold align. by intros -> ->. Qed.

Lemma and_switch_ext (lp rp lp' rp' : tsPositionSet) :
  invert lp' = invert lp → invert rp' = invert rp →
  and_switch lp' rp' = and_switch lp rp.
Proof. unfold and_switch. by intros -> ->. Qed.

Lemma or_switch_ext (lp rp lp' rp' : tsPositionSet) :
  invert lp' = invert lp → invert rp' = invert rp →
  or_switch lp' rp' = or_switch lp rp.
Proof. unfold or_switch. by intros -> ->. Qed.

(** X7: the width and the invert flag of the position set of a query are
    decided by the query alone: on any other vector the query evaluates
    too, to a set of the same width and with the same invert flag. *)
Theorem width_and_invert_of_query (v v' : TSVector) (node : tsNode) (ps : tsPositionSet) :
  evalWithinFollowedBy v node = Returns ps None →
  ∃ ps', evalWithinFollowedBy v' node = Returns ps' None ∧
         width ps' = width ps ∧ invert ps' = invert ps.
Proof.
  revert ps. induction node as [|op n t l IHl r IHr]; intros ps; [done|].
  destruct op; cbn [evalWithinFollowedBy].
  - intros [= <-]. eexists. split; [done|].
    destruct (evalLeafWithin_shape v t) as [-> ->].
    by destruct (evalLeafWithin_shape v' t) as [-> ->].
  - intros (lp & Hl & (rp & Hr & Heval)%try_set_inv)%try_set_inv.
    destruct (IHl lp Hl) as (lp' & -> & Hwl & Hil).
    destruct (IHr rp Hr) as (rp' & -> & Hwr & Hir). cbn [try_set].
    rewrite (align_ext lp rp) by done. rewrite (and_switch_ext lp rp) by done.
    destruct (align lp rp) as [[lo ro] w], (and_switch lp rp) as [mode inv].
    injection Heval as <-. eexists. split; [done|].
    by rewrite !finish_evalFollowedBy.
  - intros (lp & Hl & (rp & Hr & Heval)%try_set_inv)%try_set_inv.
    destruct (IHl lp Hl) as (lp' & -> & Hwl & Hil).
    destruct (IHr rp Hr) as (rp' & -> & Hwr & Hir). cbn [try_set].
    rewrite (align_ext lp rp) by done. rewrite (or_switch_ext lp rp) by done.
    destruct (align lp rp) as [[lo ro] w], (or_switch lp rp) as [mode inv].
    injection Heval as <-. eexists. split; [done|].
    by rewrite !finish_evalFollowedBy.
  - intros (lp & Hl & [= <-])%try_set_inv.
    destruct (IHl lp Hl) as (lp' & -> & Hwl & Hil). cbn [try_set].
    eexists. split; [done|]. cbn [width invert]. by rewrite Hil.
  - intros (lp & Hl & (rp & Hr & Heval)%try_set_inv)%try_set_inv.
    destruct (IHl lp Hl) as (lp' & -> & Hwl & Hil).
    destruct (IHr rp Hr) as (rp' & -> & Hwr & Hir). cbn [try_set]. cbv zeta in *.
    rewrite (and_switch_ext lp rp) by done. rewrite Hwl, Hwr.
    destruct (and_switch lp rp) as [mode inv].
    injection Heval as <-. eexists. split; [done|].
    by rewrite !finish_evalFollowedBy.
  - done.
Qed.

Lemma width_and_invert_of_query_witness :
  evalWithinFollowedBy cat_dog
    (mk_node followedby 3 no_term (exact_leaf "cat")
       (mk_node not_ 0 no_term (exact_leaf "dog") nil_node))
    = Returns (mkSet [mkPos 4 0] 3 false) None ∧
  ∃ ps', evalWithinFollowedBy unsorted_ab
           (mk_node followedby 3 no_term (exact_leaf "cat")
              (mk_node not_ 0 no_term (exact_leaf "dog") nil_node))
         = Returns ps' None ∧
         width ps' = 3 ∧ invert ps' = false.
Proof.
  split; [reflexivity|].
  exact (width_and_invert_of_query cat_dog unsorted_ab
           (mk_node followedby 3 no_term (exact_leaf "cat")
              (mk_node not_ 0 no_term (exact_leaf "dog") nil_node))
           (mkSet [mkPos 4 0] 3 false) eq_refl).
Defined.

(** ** Merges as set operations *)

Lemma elem_of_emitted_app (mode flag : emitMode) (q p : Z) (rest : list tsPosition) :
  p ∈ position <$> (emitted mode flag q ++ rest) ↔
  (0 < Z.land mode flag ∧ p = to_uint16 q) ∨ p ∈ position <$> rest.
Proof.
  unfold emitted. destruct (Z.ltb_spec 0 (Z.land mode flag)) as [Hflag|Hflag].
  - cbn [app]. rewrite fmap_cons, elem_of_cons. cbn [position]. tauto.
  - cbn [app]. split; [by right|]. intros [[? _]|?]; [lia | done].
Qed.

Lemma adjusted_cons (offset : Z) (x : tsPosition) (ps : list tsPosition) (p : Z) :
  p ∈ adjusted offset (x :: ps) ↔ p = position x + offset ∨ p ∈ adjusted offset ps.
Proof. unfold adjusted. by rewrite fmap_cons, elem_of_cons. Qed.

Lemma adjusted_nil (offset : Z) (p : Z) : p ∉ adjusted offset [].
Proof. unfold adjusted. apply not_elem_of_nil. Qed.

Section selected.
Context (lo ro : Z) (mode : emitMode).

Lemma selected_left (x : tsPosition) (ls rs : list tsPosition) (p : Z) :
  position x + lo ∉ adjusted lo ls → position x + lo ∉ adjusted ro rs →
  selected lo ro mode (x :: ls) rs p ↔
  (0 < Z.land mode emitLeftUnmatched ∧ p = position x + lo)
  ∨ selected lo ro mode ls rs p.
Proof.
  intros HL HR. unfold selected. rewrite adjusted_cons.
  destruct (decide (p = position x + lo)) as [->|Hne]; tauto.
Qed.

Lemma selected_right (y : tsPosition) (ls rs : list tsPosition) (p : Z) :
  position y + ro ∉ adjusted lo ls → position y + ro ∉ adjusted ro rs →
  selected lo ro mode ls (y :: rs) p ↔
  (0 < Z.land mode emitRightUnmatched ∧ p = position y + ro)
  ∨ selected lo ro mode ls rs p.
Proof.
  intros HL HR. unfold selected. rewrite adjusted_cons.
  destruct (decide (p = position y + ro)) as [->|Hne]; tauto.
Qed.

Lemma selected_both (x y : tsPosition) (ls rs : list tsPosition) (p : Z) :
  position x + lo = position y + ro →
  position y + ro ∉ adjusted lo ls → position y + ro ∉ adjusted ro rs →
  selected lo ro mode (x :: ls) (y :: rs) p ↔
  (0 < Z.land mode emitMatches ∧ p = position y + ro)
  ∨ selected lo ro mode ls rs p.
Proof.
  intros Heq HL HR. unfold selected. rewrite !adjusted_cons, Heq.
  destruct (decide (p = position y + ro)) as [->|Hne]; tauto.
Qed.

Lemma selected_nil_l (rs : list tsPosition) (p : Z) :
  Z.land mode emitRightUnmatched = 0 → ¬ selected lo ro mode [] rs p.
Proof.
  intros Hflag [(_ & H & _)|[(_ & H & _)|(Hf & _)]];
    [by apply adjusted_nil in H | by apply adjusted_nil in H | lia].
Qed.

Lemma selected_nil_r (ls : list tsPosition) (p : Z) :
  Z.land mode emitLeftUnmatched = 0 → ¬ selected lo ro mode ls [] p.
Proof.
  intros Hflag [(_ & _ & H)|[(Hf & _)|(_ & H & _)]];
    [by apply adjusted_nil in H | lia | by apply adjusted_nil in H].
Qed.
End selected.

Section merge_sets.
Context (lo ro : Z) (mode : emitMode) (top : Z).
Hypothesis top_uint16 : top < 2 ^ 16.

Local Abbreviation within m offset :=
  (Forall (λ x : tsPosition, m < position x + offset <= top)).

Lemma within_not_elem (m q offset : Z) (ps : list tsPosition) :
  within m offset ps → q <= m → q ∉ adjusted offset ps.
Proof.
  intros Hps Hq (x & -> & Hx)%list_elem_of_fmap.
  rewrite Forall_forall in Hps. specialize (Hps x Hx). cbn in Hps. lia.
Qed.

Lemma merge_selected (ls rs : list tsPosition) (m : Z) :
  -1 <= m →
  StronglySorted position_lt ls → StronglySorted position_lt rs →
  within m lo ls → within m ro rs →
  ∀ p, p ∈ position <$> merge lo ro mode ls rs ↔ selected lo ro mode ls rs p.
Proof.
  intros Hm Hls. revert rs m Hm.
  induction ls as [|x ls IHl]; intros rs m Hm Hrs Hl Hr p.
  - clear Hl Hls. revert m Hm Hr.
    induction rs as [|y rs IHr]; intros m Hm Hr.
    { rewrite merge_nil_nil. split; [by intros ?%elem_of_nil|].
      intros [(_ & H & _)|[(_ & H & _)|(_ & H & _)]]; by apply adjusted_nil in H. }
    rewrite merge_nil_cons.
    destruct (Z.eqb_spec (Z.land mode emitRightUnmatched) 0) as [Hflag|Hflag].
    { split; [by intros ?%elem_of_nil | by intros ?%selected_nil_l]. }
    pose proof (within_tail top _ _ _ _ Hrs Hr) as Hr'.
    apply Forall_cons in Hr as [Hy _].
    destruct (int_add_within top top_uint16 m ro y Hm Hy) as (Hadd & Hu & Hmax).
    apply StronglySorted_cons in Hrs as [_ Hrs].
    rewrite Hadd. destruct (Z.eqb_spec MaxInt64 (position y + ro)); [lia|].
    rewrite elem_of_emitted_app, Hu, (IHr Hrs (position y + ro) ltac:(lia) Hr').
    rewrite selected_right; [done | apply adjusted_nil |].
    by eapply within_not_elem.
  - pose proof (within_tail top _ _ _ _ Hls Hl) as Hl'.
    pose proof Hl as Hl0. apply Forall_cons in Hl0 as [Hx _].
    destruct (int_add_within top top_uint16 m lo x Hm Hx) as (Haddx & Hux & Hmaxx).
    pose proof Hls as Hls0. apply StronglySorted_cons in Hls0 as [_ Hls'].
    specialize (IHl Hls'). revert m Hm Hl Hr Hl' Hx.
    induction rs as [|y rs IHr]; intros m Hm Hl Hr Hl' Hx.
    + rewrite merge_cons_nil.
      destruct (Z.eqb_spec (Z.land mode emitLeftUnmatched) 0) as [Hflag|Hflag].
      { split; [by intros ?%elem_of_nil | by intros ?%selected_nil_r]. }
      rewrite Haddx. destruct (Z.ltb_spec (position x + lo) MaxInt64); [|lia].
      rewrite elem_of_emitted_app, Hux.
      rewrite (IHl [] (position x + lo) ltac:(lia) Hrs Hl' ltac:(done)).
      rewrite selected_left; [done | | apply adjusted_nil].
      by eapply within_not_elem.
    + rewrite merge_cons_cons.
      pose proof (within_tail top _ _ _ _ Hrs Hr) as Hr'.
      pose proof Hr as Hr0. apply Forall_cons in Hr0 as [Hy _].
      destruct (int_add_within top top_uint16 m ro y Hm Hy) as (Haddy & Huy & Hmaxy).
      pose proof Hrs as Hrs0. apply StronglySorted_cons in Hrs0 as [_ Hrs'].
      rewrite Haddx, Haddy.
      destruct (Z.ltb_spec (position x + lo) (position y + ro)) as [Hlt|Hge].
      * assert (within (position x + lo) ro (y :: rs)) as Hr2.
        { apply Forall_cons. split; [lia|].
          eapply within_weaken; [|exact Hr']. lia. }
        rewrite elem_of_emitted_app, Hux.
        rewrite (IHl (y :: rs) (position x + lo) ltac:(lia) Hrs Hl' Hr2).
        rewrite selected_left; [done | |]; by eapply within_not_elem.
      * destruct (Z.eqb_spec (position x + lo) (position y + ro)) as [Heq|Hne].
        -- rewrite elem_of_emitted_app, Huy.
           rewrite (IHl rs (position y + ro) ltac:(lia) Hrs'); [| by rewrite <- Heq | done].
           rewrite selected_both; [done | done | |].
           ++ eapply within_not_elem; [exact Hl'|]. lia.
           ++ by eapply within_not_elem.
        -- assert (within (position y + ro) lo (x :: ls)) as Hl2.
           { apply Forall_cons. split; [lia|].
             eapply within_weaken; [|exact Hl']. lia. }
           rewrite elem_of_emitted_app, Huy.
           rewrite (IHr Hrs' (position y + ro) ltac:(lia) Hl2 Hr').
           ++ rewrite selected_right; [done | |]; by eapply within_not_elem.
           ++ eapply within_weaken; [|exact Hl']. lia.
           ++ lia.
Qed.
End merge_sets.

(** X8: on strictly ascending lists whose adjusted positions stay below
    2^16 the merge is the set operation its mode names: a position is in the
    result exactly when the mode selects it, that is when it is on both
    sides and matches are emitted, only on the left and unmatched left
    entries are emitted, or only on the right and unmatched right entries
    are emitted. *)
Theorem merge_is_set_operation (lp rp : tsPositionSet) (lo ro : Z) (mode : emitMode)
    (top p : Z) :
  top < 2 ^ 16 →
  StronglySorted position_lt (positions lp) →
  StronglySorted position_lt (positions rp) →
  Forall (λ x, 0 <= position x + lo <= top) (positions lp) →
  Forall (λ y, 0 <= position y + ro <= top) (positions rp) →
  p ∈ position <$> positions (evalFollowedBy lp rp lo ro mode) ↔
  selected lo ro mode (positions lp) (positions rp) p.
Proof.
  intros Htop Hsl Hsr Hl Hr. rewrite evalFollowedBy_merge. cbn [positions].
  apply (merge_selected lo ro mode top Htop _ _ (-1)); [lia | done | done | |].
  - eapply Forall_impl; [exact Hl|]. intros x. cbn. lia.
  - eapply Forall_impl; [exact Hr|]. intros x. cbn. lia.
Qed.

Lemma merge_is_set_operation_witness :
  (10 < 2 ^ 16) ∧
  StronglySorted position_lt (at_positions [1; 3]) ∧
  StronglySorted position_lt (at_positions [2; 5]) ∧
  Forall (λ x, 0 <= position x + 1 <= 10) (at_positions [1; 3]) ∧
  Forall (λ y, 0 <= position y + 0 <= 10) (at_positions [2; 5]) ∧
  (4 ∈ position <$> positions
         (evalFollowedBy (mkSet (at_positions [1; 3]) 0 false)
            (mkSet (at_positions [2; 5]) 0 true) 1 0 left_only) ↔
   selected 1 0 left_only (at_positions [1; 3]) (at_positions [2; 5]) 4).
Proof.
  assert (10 < 2 ^ 16) as Htop by lia.
  assert (StronglySorted position_lt (at_positions [1; 3])) as Hsl
    by (apply (bool_decide_unpack _); reflexivity).
  assert (StronglySorted position_lt (at_positions [2; 5])) as Hsr
    by (apply (bool_decide_unpack _); reflexivity).
  assert (Forall (λ x, 0 <= position x + 1 <= 10) (at_positions [1; 3])) as Hl
    by (repeat constructor; simpl; lia).
  assert (Forall (λ y, 0 <= position y + 0 <= 10) (at_positions [2; 5])) as Hr
    by (repeat constructor; simpl; lia).
  split; [exact Htop|]. split; [exact Hsl|]. split; [exact Hsr|].
  split; [exact Hl|]. split; [exact Hr|].
  exact (merge_is_set_operation (mkSet (at_positions [1; 3]) 0 false)
           (mkSet (at_positions [2; 5]) 0 true) 1 0 left_only 10 4
           Htop Hsl Hsr Hl Hr).
Defined.

(** ** Exchanging the operands *)

Lemma emitted_swapped (mode mode' flag flag' : emitMode) (p : Z) :
  0 <= flag → 0 <= flag' →
  (Z.land mode' flag' =? 0) = (Z.land mode flag =? 0) →
  emitted mode' flag' p = emitted mode flag p.
Proof.
  intros Hf Hf' Heq. unfold emitted.
  assert (0 <= Z.land mode flag) by (apply Z.land_nonneg; auto).
  assert (0 <= Z.land mode' flag') by (apply Z.land_nonneg; auto).
  destruct (Z.eqb_spec (Z.land mode' flag') 0), (Z.eqb_spec (Z.land mode flag) 0);
    try done; destruct (Z.ltb_spec 0 (Z.land mode' flag')),
                (Z.ltb_spec 0 (Z.land mode flag)); (done || lia).
Qed.

Lemma emitted_matches_swapped (mode mode' : emitMode) (p : Z) :
  swapped mode mode' → emitted mode' emitMatches p = emitted mode emitMatches p.
Proof. intros (Hm & _ & _). unfold emitted. by rewrite Hm. Qed.

(** The merge with the two lists, the two offsets and the roles in the mode
    exchanged is the same merge. *)
Lemma merge_swapped (lo ro : Z) (mode mode' : emitMode) (ls rs : list tsPosition) :
  swapped mode mode' → merge ro lo mode' rs ls = merge lo ro mode ls rs.
Proof.
  intros Hswap. pose proof Hswap as (Hm & HL & HR).
  assert (∀ p, emitted mode' emitLeftUnmatched p = emitted mode emitRightUnmatched p)
    as EL by (intros p; by apply emitted_swapped).
  assert (∀ p, emitted mode' emitRightUnmatched p = emitted mode emitLeftUnmatched p)
    as ER by (intros p; by apply emitted_swapped).
  assert (∀ p, emitted mode' emitMatches p = emitted mode emitMatches p)
    as EM by (intros p; by apply emitted_matches_swapped).
  revert rs. induction ls as [|x ls IHl]; intros rs.
  - induction rs as [|y rs IHr]; [done|].
    rewrite merge_nil_cons, merge_cons_nil, HL.
    destruct (Z.land mode emitRightUnmatched =? 0); [done|].
    pose proof (int_wrap_range (position y + ro)) as Hrange.
    fold (int_add (position y) ro) in Hrange. rewrite IHr.
    destruct (Z.ltb_spec (int_add (position y) ro) MaxInt64),
      (Z.eqb_spec MaxInt64 (int_add (position y) ro)); try lia.
    + by rewrite EL.
    + by rewrite EM, e.
  - induction rs as [|y rs IHr].
    + rewrite merge_nil_cons, merge_cons_nil, HR.
      destruct (Z.land mode emitLeftUnmatched =? 0); [done|].
      pose proof (int_wrap_range (position x + lo)) as Hrange.
      fold (int_add (position x) lo) in Hrange. rewrite (IHl []).
      destruct (Z.ltb_spec (int_add (position x) lo) MaxInt64),
        (Z.eqb_spec MaxInt64 (int_add (position x) lo)); try lia.
      * by rewrite ER.
      * by rewrite EM, e.
    + rewrite (merge_cons_cons lo ro mode x ls y rs),
        (merge_cons_cons ro lo mode' y rs x ls).
      rewrite IHr, (IHl (y :: rs)), (IHl rs).
      destruct (Z.ltb_spec (int_add (position x) lo) (int_add (position y) ro)),
        (Z.ltb_spec (int_add (position y) ro) (int_add (position x) lo)); try lia.
      * destruct (Z.eqb_spec (int_add (position y) ro) (int_add (position x) lo));
          [lia|]. by rewrite ER.
      * destruct (Z.eqb_spec (int_add (position x) lo) (int_add (position y) ro));
          [lia|]. by rewrite EL.
      * assert (int_add (position x) lo = int_add (position y) ro) as Heq by lia.
        rewrite Heq, !Z.eqb_refl. by rewrite EM.
Qed.

Lemma and_switch_swapped (lp rp : tsPositionSet) :
  swapped (and_switch lp rp).1 (and_switch rp lp).1 ∧
  (and_switch rp lp).2 = (and_switch lp rp).2.
Proof. unfold and_switch, swapped. by destruct (invert lp), (invert rp). Qed.

Lemma or_switch_swapped (lp rp : tsPositionSet) :
  swapped (or_switch lp rp).1 (or_switch rp lp).1 ∧
  (or_switch rp lp).2 = (or_switch lp rp).2.
Proof. unfold or_switch, swapped. by destruct (invert lp), (invert rp). Qed.

(** X9: under the position-set evaluator [and] and [or] are commutative:
    when both operands evaluate to position sets, exchanging them gives the
    same positions, width and invert flag. *)
Theorem and_or_commute_within (v : TSVector) (n : Z) (t : tsTerm) (l r : tsNode)
    (lp rp : tsPositionSet) :
  evalWithinFollowedBy v l = Returns lp None →
  evalWithinFollowedBy v r = Returns rp None →
  evalWithinFollowedBy v (mk_node and_ n t r l) =
    evalWithinFollowedBy v (mk_node and_ n t l r) ∧
  evalWithinFollowedBy v (mk_node or_ n t r l) =
    evalWithinFollowedBy v (mk_node or_ n t l r).
Proof.
  intros Hl Hr.
  rewrite (evalWithinFollowedBy_and _ _ _ _ _ _ _ Hl Hr),
    (evalWithinFollowedBy_and _ _ _ _ _ _ _ Hr Hl),
    (evalWithinFollowedBy_or _ _ _ _ _ _ _ Hl Hr),
    (evalWithinFollowedBy_or _ _ _ _ _ _ _ Hr Hl).
  rewrite !align_max, (Z.max_comm (width rp)). cbv zeta.
  destruct (and_switch_swapped lp rp) as [Hand Hiand].
  destruct (or_switch_swapped lp rp) as [Hor Hior].
  destruct (and_switch lp rp) as [ma ia], (and_switch rp lp) as [ma' ia'],
    (or_switch lp rp) as [mo io], (or_switch rp lp) as [mo' io'].
  cbn [fst snd] in *. subst ia' io'.
  rewrite !evalFollowedBy_merge. cbn [positions].
  by rewrite (merge_swapped _ _ _ _ _ _ Hand), (merge_swapped _ _ _ _ _ _ Hor).
Qed.

Lemma and_or_commute_within_witness :
  evalWithinFollowedBy cat_dog (exact_leaf "cat")
    = Returns (mkSet (at_positions [1]) 0 false) None ∧
  evalWithinFollowedBy cat_dog (mk_node not_ 0 no_term (exact_leaf "dog") nil_node)
    = Returns (mkSet (at_positions [2]) 0 true) None ∧
  evalWithinFollowedBy cat_dog
    (mk_node and_ 0 no_term (mk_node not_ 0 no_term (exact_leaf "dog") nil_node)
       (exact_leaf "cat")) =
  evalWithinFollowedBy cat_dog
    (mk_node and_ 0 no_term (exact_leaf "cat")
       (mk_node not_ 0 no_term (exact_leaf "dog") nil_node)).
Proof.
  split; [reflexivity|]. split; [reflexivity|].
  exact (proj1 (and_or_commute_within cat_dog 0 no_term (exact_leaf "cat")
                  (mk_node not_ 0 no_term (exact_leaf "dog") nil_node)
                  (mkSet (at_positions [1]) 0 false)
                  (mkSet (at_positions [2]) 0 true) eq_refl eq_refl)).
Defined.

(** ** The normalizer on every input *)

(** X10: whatever the input, the normalizer returns a list that is strictly
    ascending by position, has at most 256 entries, holds only entries of
    the input, and is left as it is by a second pass. *)
Theorem normalizer_result (pos : list tsPosition) :
  StronglySorted position_lt (sortAndUniqTSPositions pos) ∧
  (length (sortAndUniqTSPositions pos) ≤ maxTSVectorPositions)%nat ∧
  (∀ x, x ∈ sortAndUniqTSPositions pos → x ∈ pos) ∧
  sortAndUniqTSPositions (sortAndUniqTSPositions pos) = sortAndUniqTSPositions pos.
Proof.
  pose proof (sortAndUniqTSPositions_strict pos) as Hstrict.
  assert (length (sortAndUniqTSPositions pos) ≤ maxTSVectorPositions)%nat as Hlen.
  { rewrite sortAndUniqTSPositions_uniq, length_take. lia. }
  split; [done|]. split; [done|]. split.
  - intros x. apply sortAndUniqTSPositions_elem_of.
  - rewrite (sortAndUniqTSPositions_uniq (sortAndUniqTSPositions pos)).
    rewrite (sort_Slice_strict _ Hstrict), (uniq_strict _ Hstrict).
    by apply take_ge.
Qed.

(** X11: the normalizer loses a position of its input only to the cap, and
    then it keeps the smallest ones: a position of the input is a position
    of the result, or the result is full and all its positions are
    smaller. *)
Theorem normalizer_keeps_smallest (pos : list tsPosition) (x : tsPosition) :
  x ∈ pos →
  position x ∈ position <$> sortAndUniqTSPositions pos ∨
  (length (sortAndUniqTSPositions pos) = maxTSVectorPositions ∧
   Forall (λ y, position y < position x) (sortAndUniqTSPositions pos)).
Proof.
  intros Hx. rewrite sortAndUniqTSPositions_uniq.
  pose proof (uniq_sorted _ (sort_Slice_sorted pos)) as Hs.
  assert (position x ∈ position <$> uniq (sort_Slice pos)) as Hin.
  { apply uniq_positions, list_elem_of_fmap_2. by rewrite sort_Slice_perm. }
  set (u := uniq (sort_Slice pos)) in *.
  apply list_elem_of_fmap in Hin as (y & Hxy & [i Hi]%list_elem_of_lookup_1).
  destruct (decide (i < maxTSVectorPositions)%nat) as [Hlt|Hge].
  - left. rewrite Hxy. apply list_elem_of_fmap_2.
    apply (list_elem_of_lookup_2 _ i). by rewrite lookup_take_lt.
  - right. pose proof (lookup_lt_Some _ _ _ Hi) as Hlen. split.
    + rewrite length_take. lia.
    + apply Forall_forall. intros z [j Hj]%list_elem_of_lookup_1.
      pose proof (lookup_lt_Some _ _ _ Hj) as Hjlen. rewrite length_take in Hjlen.
      rewrite lookup_take_lt in Hj by lia.
      pose proof (StronglySorted_lookup _ _ _ _ _ _ Hs Hj Hi ltac:(lia)) as Hzy.
      unfold position_lt in Hzy. lia.
Qed.

Lemma normalizer_keeps_smallest_witness :
  mkPos 3 2 ∈ [mkPos 7 0; mkPos 3 1; mkPos 3 2] ∧
  (position (mkPos 3 2)
     ∈ position <$> sortAndUniqTSPositions [mkPos 7 0; mkPos 3 1; mkPos 3 2] ∨
   (length (sortAndUniqTSPositions [mkPos 7 0; mkPos 3 1; mkPos 3 2])
      = maxTSVectorPositions ∧
    Forall (λ y, position y < position (mkPos 3 2))
      (sortAndUniqTSPositions [mkPos 7 0; mkPos 3 1; mkPos 3 2]))).
Proof.
  assert (mkPos 3 2 ∈ [mkPos 7 0; mkPos 3 1; mkPos 3 2]) as Hin.
  { apply elem_of_cons. right. apply elem_of_cons. right. apply elem_of_cons. by left. }
  split; [exact Hin|].
  exact (normalizer_keeps_smallest [mkPos 7 0; mkPos 3 1; mkPos 3 2] (mkPos 3 2) Hin).
Defined.

(** ** Prefix leaves inside a followed-by *)

Lemma with_prefix_none (target : string) (ts : list tsTerm) :
  Forall (λ t, HasPrefix (lexeme t) target = false) ts → with_prefix target ts = [].
Proof.
  unfold with_prefix. induction 1 as [|t ts Ht _ IH]; [done|].
  rewrite filter_cons_False; [done | congruence].
Qed.

Lemma prefix_scan_acc (target : string) (rest : list tsTerm) (acc : list tsPosition) :
  prefix_scan target rest acc = acc ++ prefix_scan target rest [].
Proof.
  revert acc. induction rest as [|t rest IH]; intros acc; cbn [prefix_scan];
    [by rewrite app_nil_r|].
  destruct (negb _); [by rewrite app_nil_r|].
  rewrite (IH (acc ++ _)), (IH ([] ++ _)). cbn [app]. by rewrite app_assoc.
Qed.

(** Among entries in lexeme order that are all at least the target, the
    ones with the prefix come first: the scan stops after the last one. *)
Lemma prefix_scan_run (target : string) (rest : list tsTerm) :
  StronglySorted lexeme_lt rest →
  Forall (λ t, string_ge (lexeme t) target = true) rest →
  prefix_scan target rest [] = concat (term_positions <$> with_prefix target rest).
Proof.
  induction 1 as [|t rest Hs IH Hlt]; intros Hge; [done|].
  apply Forall_cons in Hge as [Ht Hge]. cbn [prefix_scan].
  destruct (HasPrefix (lexeme t) target) eqn:Hpre; cbn [negb].
  - unfold with_prefix. rewrite filter_cons_True by done.
    fold (with_prefix target rest). rewrite fmap_cons. cbn [concat].
    rewrite prefix_scan_acc. cbn [app]. by rewrite IH.
  - unfold with_prefix. rewrite filter_cons_False by congruence.
    fold (with_prefix target rest). rewrite with_prefix_none; [done|].
    rewrite Forall_forall in Hlt. apply Forall_forall. intros t' Ht'.
    destruct (HasPrefix (lexeme t') target) eqn:Hpre'; [|done].
    unfold HasPrefix in *.
    rewrite (prefix_convex target (lexeme t) (lexeme t')) in Hpre;
      [done | done | done | by apply Hlt].
Qed.

(** X12: on a vector in lexeme order, a leaf with the prefix marker inside a
    followed-by evaluates to the normalized positions of all the entries
    whose lexeme has the leaf's lexeme as a prefix, with width 0 and not
    inverted. *)
Theorem prefix_leaf_collects (v : TSVector) (term : tsTerm) :
  sorted_by_lexeme v → prefixMatch term = true →
  evalLeafWithin v term =
    mkSet (sortAndUniqTSPositions
             (concat (term_positions <$> with_prefix (lexeme term) v))) 0 false.
Proof.
  intros Hsorted Hmarker. unfold evalLeafWithin. rewrite Hmarker.
  destruct (Search_spec (length v) (lexeme_ge_at v (lexeme term))
              (lexeme_ge_at_mono v (lexeme term) Hsorted)) as (Hle & Hlow & Hhigh).
  set (i := Search (length v) (lexeme_ge_at v (lexeme term))) in *.
  assert (with_prefix (lexeme term) v = with_prefix (lexeme term) (drop i v))
    as Hsplit.
  { rewrite <- (take_drop i v) at 1. unfold with_prefix. rewrite filter_app.
    fold (with_prefix (lexeme term) (take i v)).
    rewrite with_prefix_none; [done|].
    apply Forall_forall. intros t [k Hk]%list_elem_of_lookup_1.
    pose proof (lookup_lt_Some _ _ _ Hk) as Hlen. rewrite length_take in Hlen.
    rewrite lookup_take_lt in Hk by lia.
    specialize (Hlow k ltac:(lia)).
    rewrite (lexeme_ge_at_lookup v _ k t Hk) in Hlow.
    destruct (HasPrefix (lexeme t) (lexeme term)) eqn:HP; [|done].
    apply prefix_ge in HP. congruence. }
  rewrite Hsplit.
  destruct (v !! i) as [t0|] eqn:Ht0.
  - f_equal. f_equal. apply prefix_scan_run.
    + apply Sorted_StronglySorted in Hsorted; [|apply _].
      rewrite <- (take_drop i v) in Hsorted.
      by apply StronglySorted_app_1_r in Hsorted.
    + pose proof (lookup_lt_Some _ _ _ Ht0) as Hi.
      apply Forall_forall. intros t [k Hk]%list_elem_of_lookup_1.
      rewrite lookup_drop in Hk.
      pose proof (lookup_lt_Some _ _ _ Hk) as Hlen.
      rewrite <- (lexeme_ge_at_lookup v _ _ t Hk).
      apply (lexeme_ge_at_mono v _ Hsorted i); [lia | done | by apply Hhigh].
  - rewrite drop_ge by (by apply lookup_ge_None). done.
Qed.

Lemma prefix_leaf_collects_witness :
  sorted_by_lexeme cat_dog ∧ prefixMatch (mkTerm "ca" [mkPos 0 weightStar]) = true ∧
  evalLeafWithin cat_dog (mkTerm "ca" [mkPos 0 weightStar]) =
    mkSet (sortAndUniqTSPositions
             (concat (term_positions <$> with_prefix "ca" cat_dog))) 0 false.
Proof.
  assert (sorted_by_lexeme cat_dog) as Hsorted by (repeat constructor).
  split; [exact Hsorted|]. split; [reflexivity|].
  exact (prefix_leaf_collects cat_dog (mkTerm "ca" [mkPos 0 weightStar])
           Hsorted eq_refl).
Defined.

(** ** The meaning of a query inside a followed-by *)

Lemma adjusted_shift (offset : Z) (ps : list tsPosition) (p : Z) :
  p ∈ adjusted offset ps ↔ p - offset ∈ position <$> ps.
Proof.
  unfold adjusted. rewrite !list_elem_of_fmap.
  split; intros (x & Hx & Hin); exists x; (split; [lia | done]).
Qed.

Ltac land_compute :=
  repeat match goal with
  | |- context [Z.land ?a ?b] =>
      let c := eval vm_compute in (Z.land a b) in change (Z.land a b) with c
  end.

Section merge_meaning.
Context (lp rp : tsPositionSet) (lo ro w top p : Z).
Hypothesis top_uint16 : top < 2 ^ 16.
Hypothesis l_sorted : StronglySorted position_lt (positions lp).
Hypothesis r_sorted : StronglySorted position_lt (positions rp).
Hypothesis l_within : Forall (λ x, 0 <= position x + lo <= top) (positions lp).
Hypothesis r_within : Forall (λ y, 0 <= position y + ro <= top) (positions rp).

Lemma evalFollowedBy_selected (mode : emitMode) :
  p ∈ position <$> positions (evalFollowedBy lp rp lo ro mode) ↔
  selected lo ro mode (positions lp) (positions rp) p.
Proof.
  rewrite evalFollowedBy_merge. cbn [positions].
  apply (merge_selected lo ro mode top top_uint16 _ _ (-1)); [lia | done | done | |].
  - eapply Forall_impl; [exact l_within|]. intros x. cbn. lia.
  - eapply Forall_impl; [exact r_within|]. intros x. cbn. lia.
Qed.

(** With the mode and the flag of the [and] switch, the result says of a
    position what both operands say of it. *)
Lemma holds_and_switch :
  holds (finish (evalFollowedBy lp rp lo ro (and_switch lp rp).1)
           (and_switch lp rp).2 w) p ↔
  holds lp (p - lo) ∧ holds rp (p - ro).
Proof.
  rewrite finish_evalFollowedBy, and_switch_table. unfold holds.
  cbn [invert positions].
  destruct (invert lp), (invert rp); cbn [table_and fst snd];
    rewrite evalFollowedBy_selected, <- !adjusted_shift; unfold selected;
    land_compute;
    destruct (decide (p ∈ adjusted lo (positions lp))),
      (decide (p ∈ adjusted ro (positions rp)));
    assert (0 < 1) by lia; assert (0 < 2) by lia; assert (0 < 4) by lia;
    assert (¬ 0 < 0) by lia; tauto.
Qed.

(** With the mode and the flag of the [or] switch, the result says of a
    position what either operand says of it. *)
Lemma holds_or_switch :
  holds (finish (evalFollowedBy lp rp lo ro (or_switch lp rp).1)
           (or_switch lp rp).2 w) p ↔
  holds lp (p - lo) ∨ holds rp (p - ro).
Proof.
  rewrite finish_evalFollowedBy, or_switch_table. unfold holds.
  cbn [invert positions].
  destruct (invert lp), (invert rp); cbn [table_or fst snd];
    rewrite evalFollowedBy_selected, <- !adjusted_shift; unfold selected;
    land_compute;
    destruct (decide (p ∈ adjusted lo (positions lp))),
      (decide (p ∈ adjusted ro (positions rp)));
    assert (0 < 1) by lia; assert (0 < 2) by lia; assert (0 < 4) by lia;
    assert (¬ 0 < 0) by lia; tauto.
Qed.
End merge_meaning.

Section meaning.
Context (v : TSVector) (bound : Z).
Hypothesis v_strict : strict_positions v.
Hypothesis v_upto : positions_upto bound v.
Hypothesis bound_nonneg : 0 <= bound.

Lemma evalWithinFollowedBy_matches_at (node : tsNode) (ps : tsPositionSet) :
  nonneg_distances node → bound + span node < 2 ^ 16 →
  evalWithinFollowedBy v node = Returns ps None →
  width ps = span node ∧ ∀ p, holds ps p ↔ matches_at v node p.
Proof.
  revert ps. induction node as [|op distance term l IHl r IHr]; intros ps Hd Hspan;
    [done|].
  destruct op; cbn [evalWithinFollowedBy nonneg_distances span matches_at] in *.
  - (* a leaf *)
    intros [= <-]. destruct (evalLeafWithin_shape v term) as [Hw Hi].
    split; [done|]. intros p. unfold holds. by rewrite Hi.
  - (* and *)
    destruct Hd as [Hdl Hdr].
    pose proof (span_nonneg l Hdl). pose proof (span_nonneg r Hdr).
    intros (lp & Hl & (rp & Hr & Heval)%try_set_inv)%try_set_inv.
    destruct (IHl lp Hdl ltac:(lia) Hl) as [Hwl Hml].
    destruct (IHr rp Hdr ltac:(lia) Hr) as [Hwr Hmr].
    destruct (evalWithinFollowedBy_no_wrap v bound v_strict v_upto bound_nonneg
                l lp Hdl ltac:(lia) Hl) as (_ & Hal & Hsl).
    destruct (evalWithinFollowedBy_no_wrap v bound v_strict v_upto bound_nonneg
                r rp Hdr ltac:(lia) Hr) as (_ & Har & Hsr).
    rewrite align_max in Heval. cbv zeta in Heval.
    destruct (and_switch lp rp) as [mode inv] eqn:Hsw. injection Heval as <-.
    rewrite Hwl, Hwr in *. unfold int_sub.
    rewrite !int_wrap_small by (unfold MaxInt64; lia).
    split; [by rewrite finish_evalFollowedBy|]. intros p.
    pose proof (holds_and_switch lp rp
                  (Z.max (span l) (span r) - span l) (Z.max (span l) (span r) - span r)
                  (Z.max (span l) (span r)) (bound + Z.max (span l) (span r)) p)
      as Hholds.
    rewrite Hsw in Hholds. cbn [fst snd] in Hholds.
    rewrite Hholds, Hml, Hmr; [done | lia | done | done | |].
    + eapply Forall_impl; [exact Hal|]. intros q. cbn. lia.
    + eapply Forall_impl; [exact Har|]. intros q. cbn. lia.
  - (* or *)
    destruct Hd as [Hdl Hdr].
    pose proof (span_nonneg l Hdl). pose proof (span_nonneg r Hdr).
    intros (lp & Hl & (rp & Hr & Heval)%try_set_inv)%try_set_inv.
    destruct (IHl lp Hdl ltac:(lia) Hl) as [Hwl Hml].
    destruct (IHr rp Hdr ltac:(lia) Hr) as [Hwr Hmr].
    destruct (evalWithinFollowedBy_no_wrap v bound v_strict v_upto bound_nonneg
                l lp Hdl ltac:(lia) Hl) as (_ & Hal & Hsl).
    destruct (evalWithinFollowedBy_no_wrap v bound v_strict v_upto bound_nonneg
                r rp Hdr ltac:(lia) Hr) as (_ & Har & Hsr).
    rewrite align_max in Heval. cbv zeta in Heval.
    destruct (or_switch lp rp) as [mode inv] eqn:Hsw. injection Heval as <-.
    rewrite Hwl, Hwr in *. unfold int_sub.
    rewrite !int_wrap_small by (unfold MaxInt64; lia).
    split; [by rewrite finish_evalFollowedBy|]. intros p.
    pose proof (holds_or_switch lp rp
                  (Z.max (span l) (span r) - span l) (Z.max (span l) (span r) - span r)
                  (Z.max (span l) (span r)) (bound + Z.max (span l) (span r)) p)
      as Hholds.
    rewrite Hsw in Hholds. cbn [fst snd] in Hholds.
    rewrite Hholds, Hml, Hmr; [done | lia | done | done | |].
    + eapply Forall_impl; [exact Hal|]. intros q. cbn. lia.
    + eapply Forall_impl; [exact Har|]. intros q. cbn. lia.
  - (* not *)
    intros (lp & Hl & [= <-])%try_set_inv.
    destruct (IHl lp Hd Hspan Hl) as [Hwl Hml]. cbn [width]. split; [done|].
    intros p. rewrite <- Hml. unfold holds. cbn [invert positions].
    destruct (invert lp); cbn [negb]; [|done].
    destruct (decide (p ∈ position <$> positions lp)); tauto.
  - (* followed by *)
    destruct Hd as (Hdist & Hdl & Hdr).
    pose proof (span_nonneg l Hdl). pose proof (span_nonneg r Hdr).
    intros (lp & Hl & (rp & Hr & Heval)%try_set_inv)%try_set_inv.
    destruct (IHl lp Hdl ltac:(lia) Hl) as [Hwl Hml].
    destruct (IHr rp Hdr ltac:(lia) Hr) as [Hwr Hmr].
    destruct (evalWithinFollowedBy_no_wrap v bound v_strict v_upto bound_nonneg
                l lp Hdl ltac:(lia) Hl) as (_ & Hal & Hsl).
    destruct (evalWithinFollowedBy_no_wrap v bound v_strict v_upto bound_nonneg
                r rp Hdr ltac:(lia) Hr) as (_ & Har & Hsr).
    cbv zeta in Heval.
    destruct (and_switch lp rp) as [mode inv] eqn:Hsw. injection Heval as <-.
    rewrite Hwl, Hwr in *.
    assert (int_add distance (span r) = distance + span r) as ->
      by (apply int_wrap_small; unfold MaxInt64; lia).
    assert (int_add (distance + span r) (span l) = distance + span r + span l)
      as -> by (apply int_wrap_small; unfold MaxInt64; lia).
    split; [by rewrite finish_evalFollowedBy|]. intros p.
    pose proof (holds_and_switch lp rp (distance + span r) 0
                  (distance + span r + span l)
                  (bound + (distance + span r + span l)) p) as Hholds.
    rewrite Hsw in Hholds. cbn [fst snd] in Hholds.
    rewrite Hholds, Hml, Hmr, Z.sub_0_r; [done | lia | done | done | |].
    + eapply Forall_impl; [exact Hal|]. intros q. cbn. lia.
    + eapply Forall_impl; [exact Har|]. intros q. cbn. lia.
  - done.
Qed.
End meaning.

Lemma strict_positions_Forall (v : TSVector) :
  Forall (λ t, StronglySorted position_lt (term_positions t)) v → strict_positions v.
Proof. intros H t Ht. rewrite Forall_forall in H. by apply H. Qed.

Lemma positions_upto_Forall (bound : Z) (v : TSVector) :
  Forall (λ t, Forall (λ p, 0 <= position p <= bound) (term_positions t)) v →
  positions_upto bound v.
Proof. intros H t Ht. rewrite Forall_forall in H. by apply H. Qed.

(** X13: when nothing wraps (strictly ascending position lists, distances
    that are not negative, and the largest position plus the span of the
    query below 2^16), the position-set evaluator computes the meaning of the
    query: the width is the span, and the set, read with its invert flag,
    says of every position whether the query matches there. *)
Theorem position_sets_mean_matches (v : TSVector) (bound : Z) (node : tsNode)
    (ps : tsPositionSet) (p : Z) :
  strict_positions v → positions_upto bound v → 0 <= bound →
  nonneg_distances node → bound + span node < 2 ^ 16 →
  evalWithinFollowedBy v node = Returns ps None →
  width ps = span node ∧ (holds ps p ↔ matches_at v node p).
Proof.
  intros Hstrict Hupto Hbound Hd Hspan Heval.
  destruct (evalWithinFollowedBy_matches_at v bound Hstrict Hupto Hbound node ps
              Hd Hspan Heval) as [Hw Hm].
  split; [done | apply Hm].
Qed.

Lemma position_sets_mean_matches_witness :
  strict_positions cat_dog ∧ positions_upto 2 cat_dog ∧ 0 <= 2 ∧
  nonneg_distances
    (mk_node followedby 3 no_term (exact_leaf "cat")
       (mk_node not_ 0 no_term (exact_leaf "dog") nil_node)) ∧
  2 + span (mk_node followedby 3 no_term (exact_leaf "cat")
              (mk_node not_ 0 no_term (exact_leaf "dog") nil_node)) < 2 ^ 16 ∧
  evalWithinFollowedBy cat_dog
    (mk_node followedby 3 no_term (exact_leaf "cat")
       (mk_node not_ 0 no_term (exact_leaf "dog") nil_node))
    = Returns (mkSet [mkPos 4 0] 3 false) None ∧
  width (mkSet [mkPos 4 0] 3 false)
    = span (mk_node followedby 3 no_term (exact_leaf "cat")
              (mk_node not_ 0 no_term (exact_leaf "dog") nil_node)) ∧
  (holds (mkSet [mkPos 4 0] 3 false) 4 ↔
   matches_at cat_dog
     (mk_node followedby 3 no_term (exact_leaf "cat")
        (mk_node not_ 0 no_term (exact_leaf "dog") nil_node)) 4).
Proof.
  assert (strict_positions cat_dog) as Hstrict.
  { apply strict_positions_Forall. repeat constructor. }
  assert (positions_upto 2 cat_dog) as Hupto.
  { apply positions_upto_Forall. repeat constructor; simpl; lia. }
  assert (0 <= 2) as Hbound by lia.
  assert (nonneg_distances
            (mk_node followedby 3 no_term (exact_leaf "cat")
               (mk_node not_ 0 no_term (exact_leaf "dog") nil_node))) as Hd.
  { simpl. split; [lia | done]. }
  assert (2 + span (mk_node followedby 3 no_term (exact_leaf "cat")
                      (mk_node not_ 0 no_term (exact_leaf "dog") nil_node)) < 2 ^ 16)
    as Hspan by (simpl; lia).
  split; [exact Hstrict|]. split; [exact Hupto|]. split; [exact Hbound|].
  split; [exact Hd|]. split; [exact Hspan|]. split; [reflexivity|].
  exact (position_sets_mean_matches cat_dog 2
           (mk_node followedby 3 no_term (exact_leaf "cat")
              (mk_node not_ 0 no_term (exact_leaf "dog") nil_node))
           (mkSet [mkPos 4 0] 3 false) 4 Hstrict Hupto Hbound Hd Hspan eq_refl).
Defined.

(** ** The answer to a query *)

Lemma evalWithinFollowedBy_inverted (v : TSVector) (node : tsNode) (ps : tsPositionSet) :
  evalWithinFollowedBy v node = Returns ps None → invert ps = inverted node.
Proof.
  revert ps. induction node as [|op n t l IHl r IHr]; intros ps; [done|].
  destruct op; cbn [evalWithinFollowedBy inverted].
  - intros [= <-]. by destruct (evalLeafWithin_shape v t) as [_ ->].
  - intros (lp & Hl & (rp & Hr & Heval)%try_set_inv)%try_set_inv.
    rewrite <- (IHl lp Hl), <- (IHr rp Hr).
    destruct (align lp rp) as [[lo ro] w]. rewrite and_switch_table in Heval.
    destruct (invert lp), (invert rp); injection Heval as <-;
      by rewrite finish_evalFollowedBy.
  - intros (lp & Hl & (rp & Hr & Heval)%try_set_inv)%try_set_inv.
    rewrite <- (IHl lp Hl), <- (IHr rp Hr).
    destruct (align lp rp) as [[lo ro] w]. rewrite or_switch_table in Heval.
    destruct (invert lp), (invert rp); injection Heval as <-;
      by rewrite finish_evalFollowedBy.
  - intros (lp & Hl & [= <-])%try_set_inv. cbn [invert]. by rewrite (IHl lp Hl).
  - intros (lp & Hl & (rp & Hr & Heval)%try_set_inv)%try_set_inv.
    rewrite <- (IHl lp Hl), <- (IHr rp Hr). cbv zeta in Heval.
    rewrite and_switch_table in Heval.
    destruct (invert lp), (invert rp); injection Heval as <-;
      by rewrite finish_evalFollowedBy.
  - done.
Qed.

(** On a vector in lexeme order the boolean leaf is true exactly when an
    entry has the lexeme, or has it as a prefix under the prefix marker. *)
Lemma evalLeaf_true (v : TSVector) (term : tsTerm) :
  sorted_by_lexeme v →
  evalLeaf v term = true ↔
  if prefixMatch term
  then ∃ t, t ∈ v ∧ HasPrefix (lexeme t) (lexeme term) = true
  else ∃ t, t ∈ v ∧ lexeme t = lexeme term.
Proof.
  intros Hsorted. unfold evalLeaf. destruct (prefixMatch term); split.
  - destruct (v !! Search _ _) as [t0|] eqn:Ht0; [|done].
    intros Hpre. exists t0. split; [|done]. by eapply list_elem_of_lookup_2.
  - intros (t & [k Hk]%list_elem_of_lookup_1 & Hpre).
    by destruct (Search_prefix v (lexeme term) Hsorted k t Hk Hpre) as (t0 & -> & Ht0).
  - destruct (v !! Search _ _) as [t0|] eqn:Ht0; [|done].
    intros Heq%String.eqb_eq. exists t0. split; [|done].
    by eapply list_elem_of_lookup_2.
  - intros (t & [k Hk]%list_elem_of_lookup_1 & Heq).
    rewrite (Search_exact v (lexeme term) Hsorted k t Hk Heq).
    by apply String.eqb_eq.
Qed.

Section answer.
Context (v : TSVector) (bound : Z).
Hypothesis v_sorted : sorted_by_lexeme v.
Hypothesis v_strict : strict_positions v.
Hypothesis v_upto : positions_upto bound v.
Hypothesis bound_nonneg : 0 <= bound.

(** When nothing wraps, a position set lists a position exactly when the
    query matches somewhere, or, for an inverted set, fails to match
    somewhere. *)
Lemma positions_found (node : tsNode) (ps : tsPositionSet) :
  nonneg_distances node → bound + span node < 2 ^ 16 →
  evalWithinFollowedBy v node = Returns ps None →
  (0 <? length (positions ps))%nat = true ↔ phrase_found v node.
Proof.
  intros Hd Hspan Heval.
  destruct (evalWithinFollowedBy_matches_at v bound v_strict v_upto bound_nonneg
              node ps Hd Hspan Heval) as [_ Hm].
  pose proof (evalWithinFollowedBy_inverted v node ps Heval) as Hinv.
  unfold phrase_found. rewrite <- Hinv, nonempty_length. unfold holds in Hm. split.
  - intros Hne. destruct (positions ps) as [|q qs] eqn:Hq; [done|].
    exists (position q).
    assert (position q ∈ position <$> q :: qs) as Hin
      by (rewrite fmap_cons; apply elem_of_cons; by left).
    specialize (Hm (position q)). destruct (invert ps).
    + intros Hmatch. by apply Hm in Hmatch.
    + by apply Hm.
  - intros [p Hp] Hnil. specialize (Hm p). rewrite Hnil in Hm.
    destruct (invert ps).
    + apply Hp, Hm. apply not_elem_of_nil.
    + apply Hm in Hp. by apply elem_of_nil in Hp.
Qed.

Lemma evalNode_satisfied (node : tsNode) (b : bool) :
  phrases_fit bound node →
  evalNode v node = Returns b None →
  b = true ↔ satisfied v node.
Proof.
  revert b. induction node as [|op n term l IHl r IHr]; intros b Hfit; [done|].
  destruct op; cbn [evalNode satisfied phrases_fit] in *.
  - (* a leaf *)
    intros [= <-]. by apply evalLeaf_true.
  - (* and *)
    destruct Hfit as [Hfl Hfr].
    destruct (evalNode v l) as [lv [e|]|]; cbn [not_nil orb]; [done| |done].
    specialize (IHl lv Hfl eq_refl). destruct lv; cbn [negb].
    + intros Hr. specialize (IHr b Hfr Hr). tauto.
    + intros [= <-]. split; [done|]. intros [Hs _]. by apply IHl in Hs.
  - (* or *)
    destruct Hfit as [Hfl Hfr].
    destruct (evalNode v l) as [lv [e|]|]; cbn [not_nil]; [done| |done].
    specialize (IHl lv Hfl eq_refl). destruct lv.
    + intros [= <-]. tauto.
    + intros Hr. specialize (IHr b Hfr Hr). split; [tauto|].
      intros [Hs|Hs]; [by apply IHl in Hs | tauto].
  - (* not *)
    destruct (evalNode v l) as [lv [e|]|]; [done| |done].
    specialize (IHl lv Hfit eq_refl). intros [= <-].
    destruct lv; cbn [negb]; split; try done.
    + intros Hs. exfalso. apply Hs. by apply IHl.
    + intros _ Hs. by apply IHl in Hs.
  - (* followed by *)
    destruct Hfit as [Hd Hspan].
    destruct (evalWithinFollowedBy v (mk_node followedby n term l r))
      as [ps [e|]|] eqn:Heval; [done| |done].
    intros [= <-]. by apply (positions_found _ ps).
  - done.
Qed.
End answer.

(** X14: the answer of the evaluator is the meaning of the query.  On a
    vector in lexeme order with strictly ascending position lists, and a
    query whose followed-by operators do not wrap (distances that are not
    negative, largest position plus span below 2^16), a query that returns
    without error returns true exactly when it is satisfied: a leaf by an
    entry with its lexeme (or with it as a prefix), [and], [or] and [not] as
    in logic, a followed-by by a position that its position set lists. *)
Theorem answer_is_meaning (v : TSVector) (bound : Z) (q : TSQuery) (b : bool) :
  sorted_by_lexeme v → strict_positions v → positions_upto bound v → 0 <= bound →
  phrases_fit bound (root q) →
  EvalTSQuery q v = Returns b None →
  b = true ↔ satisfied v (root q).
Proof.
  intros Hsorted Hstrict Hupto Hbound Hfit Heval.
  by apply (evalNode_satisfied v bound Hsorted Hstrict Hupto Hbound).
Qed.

Lemma answer_is_meaning_witness :
  sorted_by_lexeme cat_dog ∧ strict_positions cat_dog ∧ positions_upto 2 cat_dog ∧
  0 <= 2 ∧
  phrases_fit 2
    (mk_node and_ 0 no_term
       (mk_node followedby 1 no_term (exact_leaf "cat") (exact_leaf "dog"))
       (mk_node not_ 0 no_term (exact_leaf "cow") nil_node)) ∧
  EvalTSQuery
    (mkQuery
       (mk_node and_ 0 no_term
          (mk_node followedby 1 no_term (exact_leaf "cat") (exact_leaf "dog"))
          (mk_node not_ 0 no_term (exact_leaf "cow") nil_node)))
    cat_dog = Returns true None ∧
  (true = true ↔
   satisfied cat_dog
     (mk_node and_ 0 no_term
        (mk_node followedby 1 no_term (exact_leaf "cat") (exact_leaf "dog"))
        (mk_node not_ 0 no_term (exact_leaf "cow") nil_node))).
Proof.
  assert (sorted_by_lexeme cat_dog) as Hsorted by (repeat constructor).
  assert (strict_positions cat_dog) as Hstrict.
  { apply strict_positions_Forall. repeat constructor. }
  assert (positions_upto 2 cat_dog) as Hupto.
  { apply positions_upto_Forall. repeat constructor; simpl; lia. }
  assert (0 <= 2) as Hbound by lia.
  assert (phrases_fit 2
            (mk_node and_ 0 no_term
               (mk_node followedby 1 no_term (exact_leaf "cat") (exact_leaf "dog"))
               (mk_node not_ 0 no_term (exact_leaf "cow") nil_node))) as Hfit.
  { simpl. repeat split; lia. }
  split; [exact Hsorted|]. split; [exact Hstrict|]. split; [exact Hupto|].
  split; [exact Hbound|]. split; [exact Hfit|]. split; [reflexivity|].
  exact (answer_is_meaning cat_dog 2
           (mkQuery
              (mk_node and_ 0 no_term
                 (mk_node followedby 1 no_term (exact_leaf "cat") (exact_leaf "dog"))
                 (mk_node not_ 0 no_term (exact_leaf "cow") nil_node)))
           true Hsorted Hstrict Hupto Hbound Hfit eq_refl).
Defined.

(** ** Exact leaves, ranges and the end of the merge loop *)

(** X15: on a vector in lexeme order, a leaf without the prefix marker
    inside a followed-by evaluates to the position list of the entry with
    its lexeme, as that list is in the vector (neither sorted nor cut), with
    width 0 and not inverted; when no entry has the lexeme, it evaluates to
    the empty set. *)
Theorem exact_leaf_positions (v : TSVector) (term : tsTerm) :
  sorted_by_lexeme v → prefixMatch term = false →
  (∀ t, t ∈ v → lexeme t = lexeme term →
        evalLeafWithin v term = mkSet (term_positions t) 0 false) ∧
  ((∀ t, t ∈ v → lexeme t ≠ lexeme term) → evalLeafWithin v term = empty_set).
Proof.
  intros Hsorted Hexact. split.
  - intros t [k Hk]%list_elem_of_lookup_1 Heq. unfold evalLeafWithin.
    rewrite (Search_exact v (lexeme term) Hsorted k t Hk Heq), Hexact.
    apply String.eqb_eq in Heq. by rewrite Heq.
  - intros Habsent. unfold evalLeafWithin.
    destruct (v !! Search _ _) as [t|] eqn:Ht; [|done]. rewrite Hexact.
    destruct (String.eqb_spec (lexeme t) (lexeme term)) as [Heq|Hne]; [|done].
    exfalso. apply (Habsent t); [by eapply list_elem_of_lookup_2 | done].
Qed.

Lemma exact_leaf_positions_witness :
  sorted_by_lexeme unsorted_ab ∧ prefixMatch (mkTerm "a" []) = false ∧
  (∀ t, t ∈ unsorted_ab → lexeme t = "a"%string →
        evalLeafWithin unsorted_ab (mkTerm "a" []) = mkSet (term_positions t) 0 false).
Proof.
  assert (sorted_by_lexeme unsorted_ab) as Hsorted by (repeat constructor).
  split; [exact Hsorted|]. split; [reflexivity|].
  exact (proj1 (exact_leaf_positions unsorted_ab (mkTerm "a" []) Hsorted eq_refl)).
Defined.

(** X16: when nothing wraps (strictly ascending position lists between 0
    and [bound], distances that are not negative, [bound] plus the span of
    the query below 2^16), every position of the result is between 0 and
    [bound] plus the span, and the result is strictly ascending. *)
Theorem results_in_range_without_wrap (v : TSVector) (bound : Z) (node : tsNode)
    (ps : tsPositionSet) :
  strict_positions v → positions_upto bound v → 0 <= bound →
  nonneg_distances node → bound + span node < 2 ^ 16 →
  evalWithinFollowedBy v node = Returns ps None →
  Forall (λ q, 0 <= position q <= bound + span node) (positions ps) ∧
  StronglySorted position_lt (positions ps).
Proof.
  intros Hstrict Hupto Hbound Hd Hspan Heval.
  destruct (evalWithinFollowedBy_no_wrap v bound Hstrict Hupto Hbound
              node ps Hd Hspan Heval) as (Hw & Hall & Hsorted).
  split; [|done]. eapply Forall_impl; [exact Hall|]. intros q. cbn. lia.
Qed.

Lemma results_in_range_without_wrap_witness :
  strict_positions cat_dog ∧ positions_upto 2 cat_dog ∧ 0 <= 2 ∧
  nonneg_distances
    (mk_node followedby 3 no_term (exact_leaf "cat")
       (mk_node not_ 0 no_term (exact_leaf "dog") nil_node)) ∧
  2 + span (mk_node followedby 3 no_term (exact_leaf "cat")
              (mk_node not_ 0 no_term (exact_leaf "dog") nil_node)) < 2 ^ 16 ∧
  evalWithinFollowedBy cat_dog
    (mk_node followedby 3 no_term (exact_leaf "cat")
       (mk_node not_ 0 no_term (exact_leaf "dog") nil_node))
    = Returns (mkSet [mkPos 4 0] 3 false) None ∧
  Forall (λ q, 0 <= position q <=
               2 + span (mk_node followedby 3 no_term (exact_leaf "cat")
                           (mk_node not_ 0 no_term (exact_leaf "dog") nil_node)))
    (positions (mkSet [mkPos 4 0] 3 false)) ∧
  StronglySorted position_lt (positions (mkSet [mkPos 4 0] 3 false)).
Proof.
  assert (strict_positions cat_dog) as Hstrict.
  { apply strict_positions_Forall. repeat constructor. }
  assert (positions_upto 2 cat_dog) as Hupto.
  { apply positions_upto_Forall. repeat constructor; simpl; lia. }
  assert (0 <= 2) as Hbound by lia.
  assert (nonneg_distances
            (mk_node followedby 3 no_term (exact_leaf "cat")
               (mk_node not_ 0 no_term (exact_leaf "dog") nil_node))) as Hd.
  { simpl. split; [lia | done]. }
  assert (2 + span (mk_node followedby 3 no_term (exact_leaf "cat")
                      (mk_node not_ 0 no_term (exact_leaf "dog") nil_node)) < 2 ^ 16)
    as Hspan by (simpl; lia).
  split; [exact Hstrict|]. split; [exact Hupto|]. split; [exact Hbound|].
  split; [exact Hd|]. split; [exact Hspan|]. split; [reflexivity|].
  exact (results_in_range_without_wrap cat_dog 2
           (mk_node followedby 3 no_term (exact_leaf "cat")
              (mk_node not_ 0 no_term (exact_leaf "dog") nil_node))
           (mkSet [mkPos 4 0] 3 false) Hstrict Hupto Hbound Hd Hspan eq_refl).
Defined.

(** X17: the loop of the merge ends: after as many iterations as the two
    lists have entries together the loop has been left, and the positions
    collected by then are the result, however many more iterations are
    allowed. *)
Theorem merge_loop_ends (lp rp : tsPositionSet) (lo ro : Z) (mode : emitMode)
    (fuel : nat) :
  (length (positions lp) + length (positions rp) ≤ fuel)%nat →
  evalFollowedBy_body lp rp lo ro mode
    (iterate fuel (evalFollowedBy_body lp rp lo ro mode) (mkMerge 0 0 [])) = None ∧
  ret (iterate fuel (evalFollowedBy_body lp rp lo ro mode) (mkMerge 0 0 []))
    = positions (evalFollowedBy lp rp lo ro mode).
Proof.
  intros Hfuel.
  destruct (evalFollowedBy_loop_merge lp rp lo ro mode fuel (mkMerge 0 0 []))
    as [Hret Hexit]; [cbn [lIdx rIdx]; lia|].
  split; [done|]. rewrite Hret, evalFollowedBy_merge. done.
Qed.

Lemma merge_loop_ends_witness :
  (length (positions (mkSet (at_positions [1%Z; 3%Z]) 0%Z false))
   + length (positions (mkSet (at_positions [2%Z; 5%Z]) 0%Z true)) ≤ 7)%nat ∧
  evalFollowedBy_body (mkSet (at_positions [1; 3]) 0 false)
    (mkSet (at_positions [2; 5]) 0 true) 1 0 left_only
    (iterate 7
       (evalFollowedBy_body (mkSet (at_positions [1; 3]) 0 false)
          (mkSet (at_positions [2; 5]) 0 true) 1 0 left_only)
       (mkMerge 0 0 [])) = None.
Proof.
  assert (length (positions (mkSet (at_positions [1%Z; 3%Z]) 0%Z false))
          + length (positions (mkSet (at_positions [2%Z; 5%Z]) 0%Z true)) ≤ 7)%nat
    as Hfuel by (simpl; lia).
  split; [exact Hfuel|].
  exact (proj1 (merge_loop_ends (mkSet (at_positions [1; 3]) 0 false)
                  (mkSet (at_positions [2; 5]) 0 true) 1 0 left_only 7 Hfuel)).
Defined.
